(** * Client-side reconciliation of the chat view (ChatApp.jsx)

    A shallow embedding of the state-updating logic of
    [src/ui/ChatApp.jsx] and of [decryptMessage]: the React state of the
    component is a record, every [setX(prev => ...)] updater is a pure
    function on the corresponding field, socket emissions and alerts are
    appended to logs kept in the state. *)

From stdpp Require Import gmap strings list fin_maps pretty.

Open Scope Z_scope.

#[local] Set Warnings "-register-all".

(** ** JavaScript values *)

(** The JSON-shaped values that travel through the REST and socket
    payloads, plus [undefined] (the value of a missing property).
    Numbers are the integers that JavaScript prints in plain decimal
    notation; strings are sequences of code units below 256; an object
    is a finite map from property names to values. *)
Inductive value :=
  | VUndefined
  | VNull
  | VBool (b : bool)
  | VNum (n : Z)
  | VStr (s : string)
  | VArr (l : list value)
  | VObj (o : gmap string value).

Abbreviation obj := (gmap string value).

(** ToBoolean: [undefined], [null], [false], [0] and [""] are falsy. *)
Definition truthy (v : value) : bool :=
  match v with
  | VUndefined | VNull => false
  | VBool b => b
  | VNum n => negb (n =? 0)
  | VStr s => negb (String.eqb s "")
  | VArr _ | VObj _ => true
  end.

(** [a || b] *)
Definition js_or (a b : value) : value := if truthy a then a else b.

(** [String(v)]. Arrays join their elements with a comma, [null] and
    [undefined] elements giving the empty string; a plain data object
    prints through [Object.prototype.toString]. *)
Fixpoint String_ (v : value) : string :=
  match v with
  | VUndefined => "undefined"
  | VNull => "null"
  | VBool true => "true"
  | VBool false => "false"
  | VNum n => pretty n
  | VStr s => s
  | VArr l =>
      (fix join (first : bool) (l : list value) : string :=
         match l with
         | [] => ""
         | x :: r =>
             (if first then "" else ",") +:+
             match x with
             | VUndefined | VNull => ""
             | _ => String_ x
             end +:+ join false r
         end) true l
  | VObj _ => "[object Object]"
  end.

(** [o.k] on an object: a missing property reads as [undefined]. *)
Definition get (o : obj) (k : string) : value := default VUndefined (o !! k).

(** [v.k] on a value that passed a truthiness test, for a property name
    [k] that is neither an index nor [length]: primitives and arrays have
    no such property. *)
Definition get_prop (v : value) (k : string) : value :=
  match v with
  | VObj o => get o k
  | _ => VUndefined
  end.

(** [v?.k] *)
Definition get_opt (v : option obj) (k : string) : value :=
  match v with
  | Some o => get o k
  | None => VUndefined
  end.

(** The own enumerable properties copied by [{...v}]. *)
Definition spread (v : value) : obj :=
  match v with
  | VObj o => o
  | VStr s =>
      list_to_map
        (imap (fun i c => (pretty i, VStr (String c EmptyString)))
              (String.list_ascii_of_string s))
  | VArr l => list_to_map (imap (fun i x => (pretty i, x)) l)
  | _ => ∅
  end.

(** ** Canonical identifier: [String(x.id || x._id)] *)

Definition raw_id (o : obj) : value := js_or (get o "id") (get o "_id").

Definition canonical_id (o : obj) : string := String_ (raw_id o).

(** [m.id === s] and [m.id !== s] against a string [s]: strict equality
    holds only for the very same string. *)
Definition strict_eq_str (v : value) (s : string) : bool :=
  match v with
  | VStr s' => bool_decide (s' = s)
  | _ => false
  end.

(** ** Component state *)

(** What the component hands to the socket: [socket.emit(event, payload)],
    [socket.emit(event, payload, ack)] where the acknowledgment callback
    is the closure of [send] over its [tempId], and [socket.connect()]. *)
Inductive socket_call :=
  | Emit (event : string) (payload : value)
  | EmitAck (event : string) (payload : value) (tempId : string)
  | Connect.

(** The [useState] cells of [ChatApp] that the reconciliation logic reads
    or writes, the authenticated [user], and the observable effects
    (socket calls, [alert] texts, chat fetches started by [message:new]).
    [activeRef.current] and [userRef.current] mirror [active] and [user].
    Every setter of [chats] and [messages] stores an array, so the
    [Array.isArray(prev) ? prev : []] of the updaters is the identity. *)
Record state := mkState {
  chats : list obj;
  active : option obj;
  user : option obj;
  messages : list obj;
  input : string;
  unreadCounts : gmap string Z;
  socketConnected : bool;
  loading : bool;
  emitted : list socket_call;
  alerts : list string;
  fetches : list value
}.

Definition setChats (f : list obj → list obj) (st : state) : state :=
  mkState (f (chats st)) (active st) (user st) (messages st) (input st)
          (unreadCounts st) (socketConnected st) (loading st) (emitted st)
          (alerts st) (fetches st).

Definition setActive (a : option obj) (st : state) : state :=
  mkState (chats st) a (user st) (messages st) (input st)
          (unreadCounts st) (socketConnected st) (loading st) (emitted st)
          (alerts st) (fetches st).

Definition setMessages (f : list obj → list obj) (st : state) : state :=
  mkState (chats st) (active st) (user st) (f (messages st)) (input st)
          (unreadCounts st) (socketConnected st) (loading st) (emitted st)
          (alerts st) (fetches st).

Definition setInput (s : string) (st : state) : state :=
  mkState (chats st) (active st) (user st) (messages st) s
          (unreadCounts st) (socketConnected st) (loading st) (emitted st)
          (alerts st) (fetches st).

Definition setUnreadCounts (f : gmap string Z → gmap string Z) (st : state) : state :=
  mkState (chats st) (active st) (user st) (messages st) (input st)
          (f (unreadCounts st)) (socketConnected st) (loading st) (emitted st)
          (alerts st) (fetches st).

Definition setSocketConnected (b : bool) (st : state) : state :=
  mkState (chats st) (active st) (user st) (messages st) (input st)
          (unreadCounts st) b (loading st) (emitted st)
          (alerts st) (fetches st).

Definition setLoading (b : bool) (st : state) : state :=
  mkState (chats st) (active st) (user st) (messages st) (input st)
          (unreadCounts st) (socketConnected st) b (emitted st)
          (alerts st) (fetches st).

Definition socket_do (c : socket_call) (st : state) : state :=
  mkState (chats st) (active st) (user st) (messages st) (input st)
          (unreadCounts st) (socketConnected st) (loading st)
          (emitted st ++ [c]) (alerts st) (fetches st).

Definition alert (msg : string) (st : state) : state :=
  mkState (chats st) (active st) (user st) (messages st) (input st)
          (unreadCounts st) (socketConnected st) (loading st) (emitted st)
          (alerts st ++ [msg]) (fetches st).

Definition start_fetch (chatId : value) (st : state) : state :=
  mkState (chats st) (active st) (user st) (messages st) (input st)
          (unreadCounts st) (socketConnected st) (loading st) (emitted st)
          (alerts st) (fetches st ++ [chatId]).

(** ** [message:new] *)

(** [list.some(c => String(c.id || c._id) === key)] *)
Definition has_id (key : string) (l : list obj) : bool :=
  existsb (fun c => bool_decide (canonical_id c = key)) l.

(** The [setMessages] updater of [handleNewMessage]. *)
Definition appendIncoming (message : obj) (prev : list obj) : list obj :=
  if has_id (canonical_id message) prev then prev else prev ++ [message].

(** The [setChats] updater of [handleNewMessage]; the boolean tells
    whether the asynchronous [apiGet] of the chat was started. *)
Definition upsertFromIncomingMessage (message : obj) (chatId : value)
    (prev : list obj) : list obj * bool :=
  let chatIdStr := String_ chatId in
  if has_id chatIdStr prev then
    (map (fun c => if bool_decide (canonical_id c = chatIdStr)
                   then <["lastMessage" := VObj message]> c else c) prev,
     false)
  else if truthy (get message "chatInfo") then
    let chat := <["lastMessage" := VObj message]> (spread (get message "chatInfo")) in
    if has_id (canonical_id chat) prev then (prev, false)
    else (chat :: prev, false)
  else (prev, true).

(** The inner [setChats] updater run when the fetched chat arrives. *)
Definition insertFetchedChat (chat : obj) (cur : list obj) : list obj :=
  if has_id (canonical_id chat) cur then cur else chat :: cur.

(** [counts[id] || 0]: a missing entry and a zero entry both read as 0. *)
Definition unread_or0 (counts : gmap string Z) (id : string) : Z :=
  match counts !! id with
  | Some n => if n =? 0 then 0 else n
  | None => 0
  end.

(** [next[id] = (next[id] || 0) + 1] *)
Definition incrementUnread (id : string) (prev : gmap string Z) : gmap string Z :=
  <[id := unread_or0 prev id + 1]> prev.

Definition messageChatId (message : obj) : value :=
  js_or (get message "chat") (get message "chatId").

(** [String(chatId) === String(currentActiveChatId) && !!currentActive] *)
Definition isActiveChat (chatId : value) (currentActive : option obj) : bool :=
  bool_decide (String_ chatId =
               String_ (js_or (get_opt currentActive "id") (get_opt currentActive "_id")))
  && bool_decide (is_Some currentActive).

(** [handleNewMessage(message)], with [connected] the value of
    [socket.connected] when the event arrives. *)
Definition handleNewMessage (connected : bool) (message : obj) (st : state) : state :=
  let chatId := messageChatId message in
  if negb (truthy chatId) then st
  else
    let currentActive := active st in
    let currentUser := user st in
    let isActive := isActiveChat chatId currentActive in
    let notMine :=
      negb (bool_decide (String_ (get message "sender") =
                         String_ (get_opt currentUser "id"))) in
    let st1 :=
      if isActive then
        let st' := setMessages (appendIncoming message) st in
        if connected && notMine then
          socket_do (Emit "message:seen"
                          (VObj {[ "messageIds" := VArr [raw_id message] ]}))
            (socket_do (Emit "message:delivered"
                             (VObj {[ "messageId" := raw_id message ]})) st')
        else st'
      else st in
    let '(next, fetch) := upsertFromIncomingMessage message chatId (chats st1) in
    let st2 := setChats (fun _ => next) st1 in
    let st3 := if fetch then start_fetch chatId st2 else st2 in
    if negb isActive && notMine
    then setUnreadCounts (incrementUnread (String_ chatId)) st3
    else st3.

(** Completion of the fetch started by [handleNewMessage]. *)
Definition fetchChatDone (chat : obj) (st : state) : state :=
  setChats (insertFetchedChat chat) st.

(** ** [chat:created] *)

Definition upsertFromChatCreatedEvent (chat : obj) (prev : list obj) : list obj :=
  let chatIdStr := canonical_id chat in
  if has_id chatIdStr prev then
    map (fun c => if bool_decide (canonical_id c = chatIdStr) then chat else c) prev
  else chat :: prev.

(** The payload is [None] when the event carries a falsy value. *)
Definition chatCreated (chat : option obj) (st : state) : state :=
  match chat with
  | None => st
  | Some chat =>
      socket_do (Emit "chat:join" (raw_id chat))
        (setChats (upsertFromChatCreatedEvent chat) st)
  end.

(** ** [message:status] *)

Record status_event := {
  messageId : value;
  userId : value;
  status : value
}.

(** [const st = { ...(src || {}) }; st[userId] = status;] *)
Definition patchStatus (src : value) (ev : status_event) : obj :=
  <[String_ (userId ev) := status ev]> (spread (js_or src (VObj ∅))).

Definition statusUpdateMessages (ev : status_event) (prev : list obj) : list obj :=
  map (fun m =>
         if negb (bool_decide (canonical_id m = String_ (messageId ev))) then m
         else <["status" := VObj (patchStatus (get m "status") ev)]> m)
      prev.

Definition statusUpdateChats (ev : status_event) (prev : list obj) : list obj :=
  map (fun c =>
         let lm := get c "lastMessage" in
         if negb (truthy lm) then c
         else if negb (bool_decide
                         (String_ (js_or (get_prop lm "id") (get_prop lm "_id")) =
                          String_ (messageId ev))) then c
         else <["lastMessage" :=
                  VObj (<["status" := VObj (patchStatus (get_prop lm "status") ev)]>
                          (spread lm))]> c)
      prev.

Definition messageStatus (ev : status_event) (st : state) : state :=
  setChats (statusUpdateChats ev) (setMessages (statusUpdateMessages ev) st).

(** ** Activation of a chat: the effect on [[active]] that clears the
    unread badge and marks the visible messages as seen *)

(** [if (!prev[cid]) return prev; const next = {...prev}; delete next[cid];] *)
Definition clearUnread (cid : string) (prev : gmap string Z) : gmap string Z :=
  if unread_or0 prev cid =? 0 then prev else delete cid prev.

(** [messages.filter(m => String(m.sender) !== String(user?.id))
      .map(m => m.id || m._id).filter(Boolean)] *)
Definition markSeenIds (usr : option obj) (msgs : list obj) : list value :=
  filter (fun v => truthy v = true)
    (map raw_id
       (filter (fun m => String_ (get m "sender") ≠ String_ (get_opt usr "id")) msgs)).

(** [has_socket] tells whether the [socket] prop is set ([socket?.emit]). *)
Definition clearUnreadAndMarkSeen (has_socket : bool) (st : state) : state :=
  match active st with
  | None => st
  | Some a =>
      let cid := canonical_id a in
      let st1 := setUnreadCounts (clearUnread cid) st in
      let ids := markSeenIds (user st) (messages st) in
      if negb (Nat.eqb (length ids) 0) && has_socket
      then socket_do (Emit "message:seen" (VObj {[ "messageIds" := VArr ids ]})) st1
      else st1
  end.

(** ** [send] *)

(** White space removed by [String.prototype.trim], among the code units
    below 256: TAB, LF, VT, FF, CR, SPACE and NBSP. *)
Definition is_ws (c : Ascii.ascii) : bool :=
  let n := Ascii.N_of_ascii c in
  ((9 <=? n) && (n <=? 13) || (n =? 32) || (n =? 160))%N.

Fixpoint trimStart (s : string) : string :=
  match s with
  | EmptyString => EmptyString
  | String c r => if is_ws c then trimStart r else s
  end.

Fixpoint trimEnd (s : string) : string :=
  match s with
  | EmptyString => EmptyString
  | String c r =>
      let r' := trimEnd r in
      if is_ws c && String.eqb r' "" then EmptyString else String c r'
  end.

Definition trim (s : string) : string := trimEnd (trimStart s).

(** What [send] observes of the socket: the flags read when it is called
    and [connected_after n], the value of [socket.connected] once [n]
    polling delays have elapsed. *)
Record socket_view := {
  connected_after : nat → bool;
  connecting : bool;
  disconnected : bool
}.

Definition maxWait : Z := 5000.
Definition checkInterval : Z := 200.

(** The polling loop
    [while (!socket.connected && waited < maxWait) { await delay; waited += checkInterval; if (socket.connected) break; }]
    started after [n] delays with [waited] milliseconds counted. The
    result is the number of delays elapsed, the value of [waited], and
    whether the loop left through [break]. *)
Fixpoint waitLoop (fuel : nat) (sk : socket_view) (n : nat) (waited : Z)
    : option (nat * Z * bool) :=
  match fuel with
  | O => None
  | S fuel =>
      if negb (connected_after sk n) && (waited <? maxWait) then
        let n' := S n in
        let waited' := waited + checkInterval in
        if connected_after sk n' then Some (n', waited', true)
        else waitLoop fuel sk n' waited'
      else Some (n, waited, false)
  end.

(** The loop of [send] runs from [waited = 0]; [maxWait / checkInterval]
    rounds and the final test fit in the fuel given here. *)
Definition awaitConnection (sk : socket_view) : option (nat * Z * bool) :=
  waitLoop (Z.to_nat (maxWait / checkInterval) + 1) sk 0 0.

Definition notConnectedAlert : string :=
  "Not connected to server. Please check your connection and refresh the page.".

(** Lines 471-521: the optimistic entry and the emission, once the socket
    is connected. [now] is [Date.now()], [iso] is
    [new Date().toISOString()]. Reading [user.id] of a null [user] throws
    and leaves the state as it is. *)
Definition sendOptimistic (a : obj) (now : Z) (iso : string) (st : state) : state :=
  let tempId := "temp-" +:+ pretty now in
  let chatId := raw_id a in
  let messageContent := trim (input st) in
  match user st with
  | None => st
  | Some u =>
      let optimisticMsg : obj :=
        list_to_map
          [ ("id", VStr tempId);
            ("chat", chatId);
            ("sender", get u "id");
            ("content", VStr messageContent);
            ("createdAt", VStr iso);
            ("status", VObj {[ String_ (get u "id") := VStr "sent" ]});
            ("optimistic", VBool true) ] in
      socket_do
        (EmitAck "message:send"
                 (VObj (list_to_map [ ("chatId", chatId);
                                      ("content", VStr messageContent) ]))
                 tempId)
        (setInput "" (setMessages (fun prev => prev ++ [optimisticMsg]) st))
  end.

(** [send(e)]; no other event is interleaved with its wait. *)
Definition send (socket : option socket_view) (now : Z) (iso : string)
    (st : state) : state :=
  match active st with
  | None => st
  | Some a =>
      if String.eqb (trim (input st)) "" then st
      else
        match socket with
        | None => alert "Socket not initialized. Please refresh the page." st
        | Some sk =>
            if connected_after sk 0 then sendOptimistic a now iso st
            else
              let st1 :=
                if negb (connecting sk) && negb (disconnected sk)
                then socket_do Connect st else st in
              match awaitConnection sk with
              | None => st1
              | Some (n, _, broke) =>
                  let st2 := if broke then setSocketConnected true st1 else st1 in
                  if negb (connected_after sk n)
                  then alert notConnectedAlert (setSocketConnected false st2)
                  else sendOptimistic a now iso st2
              end
        end
  end.

(** The acknowledgment of [message:send]: [None] for a falsy [ack],
    otherwise its [ok], [message] (an object, or [None] when falsy) and
    [error] members. *)
Record ack_payload := {
  ack_ok : value;
  ack_message : option obj;
  ack_error : value
}.

Definition removeOptimistic (tempId : string) (prev : list obj) : list obj :=
  filter (fun m => strict_eq_str (get m "id") tempId = false) prev.

(** The updater of the success branch. *)
Definition reconcileAck (tempId : string) (real : obj) (prev : list obj) : list obj :=
  if has_id (String_ (raw_id real)) prev
  then removeOptimistic tempId prev
  else map (fun m => if strict_eq_str (get m "id") tempId then real else m) prev.

(** The callback [(ack) => { ... }] passed to [socket.emit]. *)
Definition ackCallback (tempId : string) (ack : option ack_payload)
    (st : state) : state :=
  match ack with
  | None => st
  | Some a =>
      match (if truthy (ack_ok a) then ack_message a else None) with
      | Some real => setMessages (reconcileAck tempId real) st
      | None =>
          if truthy (ack_error a)
          then alert ("Message failed: " +:+ String_ (ack_error a))
                 (setMessages (removeOptimistic tempId) st)
          else st
      end
  end.

(** ** [loadChats] *)

(** The outcome of [await apiGet("/api/chats", token)]. *)
Inductive chats_response :=
  | RespArray (data : list obj)
  | RespObject (data : obj)
  | RespEmpty
  | RespFailed.

(** One round of [data.forEach]: [uniqueChats] and [seenIds] after
    visiting [chat]. *)
Definition dedupStep (acc : list obj * gset string) (chat : obj)
    : list obj * gset string :=
  let chatId := canonical_id chat in
  if bool_decide (chatId ∈ acc.2) then acc
  else (acc.1 ++ [chat], {[ chatId ]} ∪ acc.2).

Definition uniqueChats (data : list obj) : list obj :=
  (foldl dedupStep ([], ∅) data).1.

(** [loadChats()] once the response is there. [active0] is the [active]
    of the render in which the effect was set up: the closure tests that
    one. *)
Definition loadChats (active0 : option obj) (resp : chats_response)
    (st : state) : state :=
  setLoading false
    match resp with
    | RespArray data =>
        let unique := uniqueChats data in
        let st1 := setChats (fun _ => unique) st in
        match unique, active0 with
        | first :: _, None => setActive (Some first) st1
        | _, _ => st1
        end
    | RespObject data =>
        let st1 := setChats (fun _ => [data]) st in
        match active0 with
        | None => setActive (Some data) st1
        | Some _ => st1
        end
    | RespEmpty => setChats (fun _ => []) st
    | RespFailed => st
    end.

(** ** [decryptMessage] *)

(** The outcome of a JavaScript computation that may throw. *)
Inductive completion (A : Type) :=
  | Return (a : A)
  | Throw (error : string).
Arguments Return {A} a.
Arguments Throw {A} error.

Definition andThen {A B} (c : completion A) (k : A → completion B) : completion B :=
  match c with
  | Return a => k a
  | Throw e => Throw e
  end.

(** [try { body } catch (error) { handler }] *)
Definition tryCatch {A} (body : completion A) (handler : string → completion A)
    : completion A :=
  match body with
  | Return a => Return a
  | Throw e => handler e
  end.

Definition MESSAGE_SECRET_KEY : string := "LSKDJFL3K4JJKFDLLJL45PMNE4N5".

Definition invalidPlaceholder : string := "[Invalid Encrypted Data]".

Section Decrypt.

(** The two calls into the crypto-js library, either of which may throw. *)
Context {WordArray : Type}.
Variable AES_decrypt : value → string → completion WordArray.
Variable toString_Utf8 : WordArray → completion string.

Definition decryptMessage (cipherText : value) : completion string :=
  tryCatch
    (andThen (AES_decrypt cipherText MESSAGE_SECRET_KEY) (fun bytes =>
     andThen (toString_Utf8 bytes) (fun originalText =>
     Return originalText)))
    (fun _ => Return invalidPlaceholder).

End Decrypt.

(** ** Events of the reconciliation layer *)

(** The asynchronous arrivals that change the chat list or the thread;
    any order of arrival is a list of these. *)
Inductive event :=
  | MessageNew (connected : bool) (message : obj)
  | FetchChatDone (chat : obj)
  | ChatCreated (chat : option obj)
  | MessageStatus (ev : status_event).

Definition step (st : state) (e : event) : state :=
  match e with
  | MessageNew connected message => handleNewMessage connected message st
  | FetchChatDone chat => fetchChatDone chat st
  | ChatCreated chat => chatCreated chat st
  | MessageStatus ev => messageStatus ev st
  end.

Definition run (st : state) (evs : list event) : state := foldl step st evs.

(** Number of entries of a list that carry the canonical id [k]. *)
Definition count_id (k : string) (l : list obj) : nat :=
  length (filter (fun c => canonical_id c = k) l).

(** * Vocabulary of the statements *)

(** A [message:new] payload that names the active chat of [st]. *)
Definition deliveredToActive (st : state) (message : obj) : Prop :=
  truthy (messageChatId message) = true ∧
  isActiveChat (messageChatId message) (active st) = true.

Definition deliverAll (st : state) (evs : list (bool * obj)) : state :=
  foldl (fun s e => handleNewMessage e.1 e.2 s) st evs.

(** An arrival that tries to insert a chat with canonical id [k]: a
    [message:new] for chat [k] that embeds the chat, the completion of
    the fetch of chat [k], or [chat:created] for chat [k]. *)
Definition insertTriggerFor (k : string) (e : event) : Prop :=
  match e with
  | MessageNew _ message =>
      truthy (messageChatId message) = true ∧
      String_ (messageChatId message) = k ∧
      truthy (get message "chatInfo") = true ∧
      canonical_id (spread (get message "chatInfo")) = k
  | FetchChatDone chat => canonical_id chat = k
  | ChatCreated (Some chat) => canonical_id chat = k
  | _ => False
  end.

(** An error acknowledgment: [ok] is falsy (in particular [ok:false]) and
    [error] is truthy. *)
Definition isErrorAck (a : ack_payload) : Prop :=
  truthy (ack_ok a) = false ∧ truthy (ack_error a) = true.

(** Every code unit of the string is white space (the empty string
    included). *)
Fixpoint all_ws (s : string) : bool :=
  match s with
  | EmptyString => true
  | String c r => is_ws c && all_ws r
  end.

(** Number of polling rounds that fit in [maxWait]. *)
Definition maxPolls : nat := Z.to_nat (maxWait / checkInterval).

(** Deduplication as the specification words it: walk the list and keep
    a chat exactly when no chat with its canonical id was met before. *)
Fixpoint firstOccurrences (seen : gset string) (data : list obj) : list obj :=
  match data with
  | [] => []
  | c :: r =>
      if decide (canonical_id c ∈ seen) then firstOccurrences seen r
      else c :: firstOccurrences ({[ canonical_id c ]} ∪ seen) r
  end.

(** The event names the message [m] of the thread. *)
Definition matchesMessage (ev : status_event) (m : obj) : Prop :=
  canonical_id m = String_ (messageId ev).

(** The event names the last-message snapshot cached in chat [c]. *)
Definition matchesLastMessage (ev : status_event) (c : obj) : Prop :=
  truthy (get c "lastMessage") = true ∧
  String_ (js_or (get_prop (get c "lastMessage") "id")
                 (get_prop (get c "lastMessage") "_id")) =
  String_ (messageId ev).

(** [new] is the status map [old] with the entry of the event's user set
    to the event's status and every other entry as it was. *)
Definition statusPatched (ev : status_event) (old new : value) : Prop :=
  ∃ st', new = VObj st' ∧
         st' !! String_ (userId ev) = Some (status ev) ∧
         ∀ u, u ≠ String_ (userId ev) →
              st' !! u = spread (js_or old (VObj ∅)) !! u.

(** * Sample data *)

(** Sample data used to exercise the statements. *)
Definition chat_c1 : obj := {[ "id" := VStr "c1" ]}.
Definition user_u1 : obj := {[ "id" := VStr "u1" ]}.
Definition msg_m1 : obj :=
  list_to_map [ ("id", VStr "m1"); ("chat", VStr "c1"); ("sender", VStr "u2") ].
Definition state0 : state :=
  mkState [chat_c1] (Some chat_c1) (Some user_u1) [] "" ∅ true false [] [] [].

Definition chat_c2 : obj := {[ "_id" := VStr "c2" ]}.
Definition msg_m2 : obj :=
  list_to_map [ ("id", VStr "m2"); ("chatId", VStr "c2"); ("sender", VStr "u2");
                ("chatInfo", VObj chat_c2) ].

Definition msg_m3 : obj :=
  list_to_map [ ("_id", VStr "m3"); ("chat", VStr "c1"); ("sender", VStr "u1") ].

Definition state1 : state :=
  mkState [chat_c1] (Some chat_c1) (Some user_u1) [msg_m1; msg_m3] ""
          {[ "c1" := 2 ]} true false [] [] [].

Definition socket_up : socket_view :=
  {| connected_after := fun _ => true; connecting := false; disconnected := false |}.

(** The state right after [send] of the input " hi " at time 1. *)
Definition state_sent : state :=
  send (Some socket_up) 1 "2024-01-01T00:00:00.000Z" (setInput " hi " state0).

Definition ack_failed : ack_payload :=
  {| ack_ok := VBool false; ack_message := None; ack_error := VStr "denied" |}.

Definition ack_refused : ack_payload :=
  {| ack_ok := VBool false; ack_message := None; ack_error := VUndefined |}.

Definition socket_down : socket_view :=
  {| connected_after := fun _ => false; connecting := false; disconnected := true |}.

Definition note_a : obj :=
  list_to_map [ ("chat", VStr "c1"); ("sender", VStr "u2"); ("content", VStr "a") ].
Definition note_b : obj :=
  list_to_map [ ("chat", VStr "c1"); ("sender", VStr "u2"); ("content", VStr "b") ].
Definition named_undefined : obj := {[ "id" := VStr "undefined" ]}.

(** A stand-in for the library: only strings that start with ["U2FsdGVk"]
    decrypt, everything else throws. *)
Definition sample_decrypt (c : value) (key : string) : completion string :=
  match c with
  | VStr s => if String.prefix "U2FsdGVk" s then Return s else Throw "Malformed"
  | _ => Throw "Malformed"
  end.

Definition chat_c1_dup : obj := list_to_map [ ("_id", VStr "c1"); ("name", VStr "later") ].

(** The state before the first load: nothing cached, no active chat. *)
Definition state_fresh : state :=
  mkState [] None (Some user_u1) [] "" ∅ true true [] [] [].

Definition msg_m1_last : obj :=
  list_to_map [ ("id", VStr "m1"); ("status", VObj {[ "u2" := VStr "sent" ]}) ].

Definition state2 : state :=
  mkState [ <["lastMessage" := VObj msg_m1_last]> chat_c1 ] (Some chat_c1)
          (Some user_u1) [msg_m1; msg_m3] "" ∅ true false [] [] [].

Definition status_unknown : status_event :=
  {| messageId := VStr "m404"; userId := VStr "u2"; status := VStr "seen" |}.

(** * Further parts of the component *)

(** [a === b]. Primitives are compared by value; arrays and objects by
    reference, and two values read from different payloads are never the
    same reference. *)
Definition strict_eq (a b : value) : bool :=
  match a, b with
  | VUndefined, VUndefined => true
  | VNull, VNull => true
  | VBool x, VBool y => bool_decide (x = y)
  | VNum x, VNum y => bool_decide (x = y)
  | VStr x, VStr y => bool_decide (x = y)
  | _, _ => false
  end.

Definition is_nullish (v : value) : bool :=
  match v with
  | VUndefined | VNull => true
  | _ => false
  end.

(** ** [typing] *)

Record typing_event := {
  typing_chatId : value;
  typing_flag : value
}.

(** The [setChats] updater of [handleTypingEvent]: the chat is found by
    [(c.id || c._id) === data.chatId]. *)
Definition typingUpdateChats (data : typing_event) (prev : list obj) : list obj :=
  map (fun c => if strict_eq (raw_id c) (typing_chatId data)
                then <["typing" := typing_flag data]> c else c)
      prev.

Definition handleTypingEvent (data : typing_event) (st : state) : state :=
  setChats (typingUpdateChats data) st.

(** ** [user:presence] *)

Record presence_event := {
  presence_userId : value;
  presence_isOnline : value;
  presence_lastSeen : value
}.

(** [l.some(f)] for a callback that may throw ([None]): the elements
    behind the first hit are not visited. *)
Fixpoint someThrowing {A} (f : A → option bool) (l : list A) : option bool :=
  match l with
  | [] => Some false
  | x :: r =>
      match f x with
      | None => None
      | Some true => Some true
      | Some false => someThrowing f r
      end
  end.

(** [m => m.id === data.userId || m._id === data.userId]; reading a
    member of [null] or [undefined] throws. *)
Definition isPresenceMember (data : presence_event) (m : value) : option bool :=
  if is_nullish m then None
  else Some (strict_eq (get_prop m "id") (presence_userId data)
             || strict_eq (get_prop m "_id") (presence_userId data)).

(** [m => (m.id || m._id) === data.userId
           ? { ...m, isOnline: data.isOnline, lastSeen: data.lastSeen } : m] *)
Definition patchPresenceMember (data : presence_event) (m : value) : option value :=
  if is_nullish m then None
  else if strict_eq (js_or (get_prop m "id") (get_prop m "_id")) (presence_userId data)
  then Some (VObj (<["lastSeen" := presence_lastSeen data]>
                     (<["isOnline" := presence_isOnline data]> (spread m))))
  else Some m.

(** [c.members?.some(...) ? { ...c, members: c.members.map(...) } : c].
    Only [null] and [undefined] stop at [?.]; a [members] that is not an
    array has no [some] to call. *)
Definition presencePatchChat (data : presence_event) (c : obj) : option obj :=
  match get c "members" with
  | VUndefined | VNull => Some c
  | VArr members =>
      match someThrowing (isPresenceMember data) members with
      | None => None
      | Some true =>
          match mapM (patchPresenceMember data) members with
          | None => None
          | Some members' => Some (<["members" := VArr members']> c)
          end
      | Some false => Some c
      end
  | _ => None
  end.

(** The [user:presence] handler; [None] when the updater throws. *)
Definition userPresence (data : presence_event) (st : state) : option state :=
  match mapM (presencePatchChat data) (chats st) with
  | None => None
  | Some next => Some (setChats (fun _ => next) st)
  end.

(** ** Creating chats: [createOneToOne], [createGroup], [toggleSelectMember] *)

(** The [useState] cells of the search box and of the group form. *)
Record form := mkForm {
  query : string;
  searchResults : list obj;
  groupMode : bool;
  groupName : string;
  selectedMembers : list value
}.

(** [prev.includes(userId) ? prev.filter(id => id !== userId) : [...prev, userId]],
    for user ids that are primitive values. *)
Definition toggleSelectMember (userId : value) (prev : list value) : list value :=
  if existsb (strict_eq userId) prev
  then filter (fun id => strict_eq id userId = false) prev
  else prev ++ [userId].

(** The [setChats] updater shared by [createOneToOne] and [createGroup]:
    an existing chat with the id is kept as it is. *)
Definition insertCreatedChat (chat : obj) (prev : list obj) : list obj :=
  if has_id (canonical_id chat) prev then prev else chat :: prev.

(** What both functions do with the chat the server returns. *)
Definition adoptCreatedChat (has_socket : bool) (chat : obj) (st : state) : state :=
  let st1 := setActive (Some chat) (setChats (insertCreatedChat chat) st) in
  if has_socket then socket_do (Emit "chat:join" (raw_id chat)) st1 else st1.

(** The body posted by [createOneToOne(userId)]. *)
Definition oneToOneRequest (userId : value) : value :=
  VObj (list_to_map [ ("memberIds", VArr [userId]); ("isGroup", VBool false) ]).

(** [createOneToOne] once [apiPost] has settled: [None] when it rejected. *)
Definition createOneToOne (has_socket : bool) (resp : option obj)
    (ui : state * form) : state * form :=
  match resp with
  | None => ui
  | Some chat =>
      (adoptCreatedChat has_socket chat ui.1,
       mkForm "" [] (groupMode ui.2) (groupName ui.2) (selectedMembers ui.2))
  end.

(** The body posted by [createGroup()], or [None] when the guard
    [!groupName.trim() || selectedMembers.length === 0] returns early. *)
Definition groupRequest (f : form) : option value :=
  if String.eqb (trim (groupName f)) "" || Nat.eqb (length (selectedMembers f)) 0
  then None
  else Some (VObj (list_to_map [ ("memberIds", VArr (selectedMembers f));
                                 ("isGroup", VBool true);
                                 ("name", VStr (trim (groupName f))) ])).

(** [createGroup] once [apiPost] has settled. *)
Definition createGroup (has_socket : bool) (resp : option obj)
    (ui : state * form) : state * form :=
  match groupRequest ui.2 with
  | None => ui
  | Some _ =>
      match resp with
      | None => ui
      | Some chat => (adoptCreatedChat has_socket chat ui.1, mkForm "" [] false "" [])
      end
  end.

(** ** Rendering helpers *)

(** [self.findIndex(p)]: the first index whose element satisfies [p],
    or [-1]. *)
Fixpoint findIndexFrom {A} (p : A → bool) (l : list A) (i : Z) : Z :=
  match l with
  | [] => -1
  | x :: r => if p x then i else findIndexFrom p r (i + 1)
  end.

Definition findIndex {A} (p : A → bool) (l : list A) : Z := findIndexFrom p l 0.

(** [l.filter((c, index) => keep(c, index))], the elements of [l] being
    at the indices [i], [i + 1], ... *)
Fixpoint filterIndexFrom {A} (keep : A → Z → bool) (l : list A) (i : Z) : list A :=
  match l with
  | [] => []
  | x :: r =>
      if keep x i then x :: filterIndexFrom keep r (i + 1)
      else filterIndexFrom keep r (i + 1)
  end.

(** The chats the sidebar lists:
    [safeChats.filter((c, index, self) =>
       index === self.findIndex(chat => String(chat.id || chat._id) === chatId))]. *)
Definition listedChats (safeChats : list obj) : list obj :=
  filterIndexFrom
    (fun c index =>
       index =? findIndex (fun chat => bool_decide (canonical_id chat = canonical_id c))
                          safeChats)
    safeChats 0.

(** [renderUnread(chat)]: the number in the badge, [None] for no badge. *)
Definition renderUnread (counts : gmap string Z) (chat : obj) : option Z :=
  let n := unread_or0 counts (canonical_id chat) in
  if n =? 0 then None else Some n.

(** [l.find(f)] for a callback that may throw (outer [None]). *)
Fixpoint findThrowing {A} (f : A → option bool) (l : list A) : option (option A) :=
  match l with
  | [] => Some None
  | x :: r =>
      match f x with
      | None => None
      | Some true => Some (Some x)
      | Some false => findThrowing f r
      end
  end.

(** [m => m.id !== user?.id && m._id !== user?.id] *)
Definition isOtherMember (usr : option obj) (m : value) : option bool :=
  if is_nullish m then None
  else Some (negb (strict_eq (get_prop m "id") (get_opt usr "id"))
             && negb (strict_eq (get_prop m "_id") (get_opt usr "id"))).

(** [chat.members?.find(m => m.id !== user?.id && m._id !== user?.id)];
    [None] when it throws. *)
Definition findOtherMember (usr : option obj) (chat : obj) : option value :=
  match get chat "members" with
  | VUndefined | VNull => Some VUndefined
  | VArr members =>
      match findThrowing (isOtherMember usr) members with
      | None => None
      | Some found => Some (default VUndefined found)
      end
  | _ => None
  end.

(** [getChatTitle(chat)]; [None] when it throws. *)
Definition getChatTitle (usr : option obj) (chat : obj) : option value :=
  if truthy (get chat "isGroup") then Some (get chat "name")
  else
    match findOtherMember usr chat with
    | None => None
    | Some other =>
        Some (js_or (js_or (get_prop other "name") (get_prop other "username"))
                    (VStr "Unknown"))
    end.

(** [getOtherMember(chat)] for a chat object: [... || null]. *)
Definition getOtherMember (usr : option obj) (chat : obj) : option value :=
  if truthy (get chat "isGroup") then Some VNull
  else
    match findOtherMember usr chat with
    | None => None
    | Some other => Some (js_or other VNull)
    end.

(** The block of [formatPresenceLine] run when [other.lastSeen] is
    truthy; [diffMs] is [now - new Date(other.lastSeen)], [None] when the
    date does not parse (NaN). *)
Definition lastSeenLine (diffMs : option Z) : string :=
  match diffMs with
  | None => "Last seen NaN d ago"
  | Some diffMs =>
      let mins := diffMs / 60000 in
      if mins <? 1 then "Last seen just now"
      else if mins <? 60 then "Last seen " +:+ pretty mins +:+ " min ago"
      else
        let hours := mins / 60 in
        if hours <? 24 then "Last seen " +:+ pretty hours +:+ " h ago"
        else
          let days := hours / 24 in
          "Last seen " +:+ pretty days +:+ " d ago"
  end.

(** [formatPresenceLine(chat)] for a chat object; [elapsed] gives
    [now - new Date(lastSeen)] for a [lastSeen] value. *)
Definition formatPresenceLine (usr : option obj) (elapsed : value → option Z)
    (chat : obj) : option string :=
  if truthy (get chat "isGroup") then Some ""
  else
    match getOtherMember usr chat with
    | None => None
    | Some other =>
        if negb (truthy other) then Some ""
        else if truthy (get_prop other "isOnline") then Some "Online"
        else if truthy (get_prop other "lastSeen")
        then Some (lastSeenLine (elapsed (get_prop other "lastSeen")))
        else Some "Last seen unknown"
    end.

(** The two results of [renderTicks]: one check mark or two. *)
Inductive ticks := OneTick | TwoTicks.

(** [renderTicks(message, chat, selfId)]; [Object.values] of a truthy
    status gives the values of its own properties. *)
Definition renderTicks (message chat : obj) (selfId : value) : ticks :=
  let statuses :=
    if truthy (get message "status")
    then (map_to_list (spread (get message "status"))).*2
    else [] in
  let seen := existsb (fun v => strict_eq_str v "seen") statuses in
  let delivered := existsb (fun v => strict_eq_str v "delivered") statuses || seen in
  if seen then TwoTicks
  else if delivered then TwoTicks
  else OneTick.

(** ** Connection lifecycle *)

(** [hay.includes(needle)] *)
Fixpoint includes (needle hay : string) : bool :=
  String.prefix needle hay ||
  match hay with
  | EmptyString => false
  | String _ r => includes needle r
  end.

(** The transport notifications [ChatApp] listens to; [connect_error]
    carries [err.message], [None] when the error has none. *)
Inductive lifecycle :=
  | OnConnect
  | OnDisconnect
  | OnConnectError (message : option string)
  | OnReconnect
  | OnReconnectAttempt
  | OnReconnectFailed.

Definition isAuthError (message : option string) : bool :=
  match message with
  | None => false
  | Some s => includes "Unauthorized" s || includes "Authentication" s
  end.

(** [handleConnect], [handleDisconnect], [handleConnectError],
    [handleReconnect], [handleReconnectAttempt], [handleReconnectFailed]. *)
Definition handleLifecycle (st : state) (e : lifecycle) : state :=
  match e with
  | OnConnect => setSocketConnected true st
  | OnDisconnect => setSocketConnected false st
  | OnConnectError message =>
      let st1 := setSocketConnected false st in
      if isAuthError message
      then alert "Authentication failed. Please log in again." st1
      else st1
  | OnReconnect => setSocketConnected true st
  | OnReconnectAttempt => st
  | OnReconnectFailed =>
      alert "Failed to reconnect to server. Please refresh the page."
        (setSocketConnected false st)
  end.

(** ** The socket instance kept by [Inner] *)

(** What [Inner] asks of socket.io: [io(WS_URL, { auth: { token }, ... })]
    and [socketRef.current.disconnect()]. *)
Inductive io_call :=
  | IoCreate (token : string)
  | IoDisconnect.

(** [!token] is false: the token is a non-empty string. *)
Definition presentToken (token : option string) : option string :=
  match token with
  | Some t => if String.eqb t "" then None else Some t
  | None => None
  end.

(** The [useMemo] callback of [Inner] run for [token]. [ref] is
    [socketRef.current], a socket being known by the token it was
    created with; the result is the new [socketRef.current], which is
    also the socket handed to [ChatApp], and the calls made. *)
Definition socketMemo (ref : option string) (token : option string)
    : option string * list io_call :=
  match presentToken token with
  | None =>
      match ref with
      | Some _ => (None, [IoDisconnect])
      | None => (None, [])
      end
  | Some t =>
      match ref with
      | Some s => (Some s, [])
      | None => (Some t, [IoCreate t])
      end
  end.

(** [socketRef.current] and the calls made so far, after [token] took
    the given values one after the other. *)
Definition socketHistory (tokens : list (option string))
    : option string * list io_call :=
  foldl (fun acc token =>
           let '(ref, calls) := socketMemo acc.1 token in
           (ref, acc.2 ++ calls))
        (None, []) tokens.

(** ** [loadMessages] and the effect on [[active, token]] *)

(** The outcome of [await apiGet(`/api/chats/${id}/messages`, token)]. *)
Inductive messages_response :=
  | MsgArray (data : list obj)
  | MsgObject (data : obj)
  | MsgEmpty
  | MsgFailed.

(** The synchronous part of the effect: without an active chat the
    thread is emptied, otherwise the room of the chat is joined. *)
Definition activeChanged (has_socket : bool) (st : state) : state :=
  match active st with
  | None => setMessages (fun _ => []) st
  | Some a =>
      if has_socket then socket_do (Emit "chat:join" (raw_id a)) st else st
  end.

(** [loadMessages()] once the response is there. *)
Definition loadMessages (resp : messages_response) (st : state) : state :=
  match resp with
  | MsgArray data => setMessages (fun _ => data) st
  | MsgObject data => setMessages (fun _ => [data]) st
  | MsgEmpty => setMessages (fun _ => []) st
  | MsgFailed => st
  end.

(** ** Everything that can happen to the state *)

Inductive action :=
  | Arrive (e : event)
  | Typing (data : typing_event)
  | Presence (data : presence_event)
  | ChatsLoaded (active0 : option obj) (resp : chats_response)
  | MessagesLoaded (resp : messages_response)
  | ChatAdopted (has_socket : bool) (chat : obj)
  | Select (chat : option obj)
  | ActiveChanged (has_socket : bool)
  | Activated (has_socket : bool)
  | Send (socket : option socket_view) (now : Z) (iso : string)
  | Ack (tempId : string) (ack : option ack_payload)
  | Lifecycle (e : lifecycle).

(** One action on the state; [None] when a state updater throws. *)
Definition perform (st : state) (a : action) : option state :=
  match a with
  | Arrive e => Some (step st e)
  | Typing data => Some (handleTypingEvent data st)
  | Presence data => userPresence data st
  | ChatsLoaded active0 resp => Some (loadChats active0 resp st)
  | MessagesLoaded resp => Some (loadMessages resp st)
  | ChatAdopted has_socket chat => Some (adoptCreatedChat has_socket chat st)
  | Select chat => Some (setActive chat st)
  | ActiveChanged has_socket => Some (activeChanged has_socket st)
  | Activated has_socket => Some (clearUnreadAndMarkSeen has_socket st)
  | Send socket now iso => Some (send socket now iso st)
  | Ack tempId ack => Some (ackCallback tempId ack st)
  | Lifecycle e => Some (handleLifecycle st e)
  end.

Fixpoint performAll (st : state) (acts : list action) : option state :=
  match acts with
  | [] => Some st
  | a :: r =>
      match perform st a with
      | None => None
      | Some st' => performAll st' r
      end
  end.

(** * Further vocabulary *)

(** The entries of a thread whose [id] is the temporary id [tempId]. *)
Definition optimisticEntries (tempId : string) (l : list obj) : list obj :=
  filter (fun m => strict_eq_str (get m "id") tempId = true) l.

(** A success acknowledgment that carries the stored message [real]. *)
Definition isSuccessAck (a : ack_payload) (real : obj) : Prop :=
  truthy (ack_ok a) = true ∧ ack_message a = Some real.

(** A [message:new] payload for chat [k] that is not the active chat of
    [st] and was not sent by the user of [st]. *)
Definition inboundToInactive (st : state) (k : string) (message : obj) : Prop :=
  truthy (messageChatId message) = true ∧
  String_ (messageChatId message) = k ∧
  isActiveChat (messageChatId message) (active st) = false ∧
  String_ (get message "sender") ≠ String_ (get_opt (user st) "id").

Definition startsWithWs (s : string) : bool :=
  match s with
  | EmptyString => false
  | String c _ => is_ws c
  end.

Fixpoint endsWithWs (s : string) : bool :=
  match s with
  | EmptyString => false
  | String c EmptyString => is_ws c
  | String _ r => endsWithWs r
  end.

(** The last-message snapshot cached in chat [c] is an object, or there
    is none (the member is missing or falsy). *)
Definition lastMessageIsObject (c : obj) : Prop :=
  match get c "lastMessage" with
  | VObj _ => True
  | v => truthy v = false
  end.

(** The [members] of chat [c] are absent, or an array without [null] or
    [undefined] entries. *)
Definition membersWellFormed (c : obj) : Prop :=
  match get c "members" with
  | VUndefined | VNull => True
  | VArr members => Forall (fun m => is_nullish m = false) members
  | _ => False
  end.

(** [m'] is member [m] after the presence event: a member the event
    names by [(m.id || m._id)] has [isOnline] and [lastSeen] set and
    every other property as before; any other member is unchanged. *)
Definition memberPatched (data : presence_event) (m m' : value) : Prop :=
  if strict_eq (js_or (get_prop m "id") (get_prop m "_id")) (presence_userId data)
  then ∃ o', m' = VObj o' ∧
             o' !! "isOnline" = Some (presence_isOnline data) ∧
             o' !! "lastSeen" = Some (presence_lastSeen data) ∧
             ∀ key, key ≠ "isOnline" → key ≠ "lastSeen" →
                    o' !! key = spread m !! key
  else m' = m.

(** The value is a primitive (not an array, not an object). *)
Definition is_primitive (v : value) : bool :=
  match v with
  | VArr _ | VObj _ => false
  | _ => true
  end.

(** The status value is a delivery or seen receipt. *)
Definition isReceipt (v : value) : bool :=
  strict_eq_str v "seen" || strict_eq_str v "delivered".


Definition isCreate (c : io_call) : bool :=
  match c with
  | IoCreate _ => true
  | IoDisconnect => false
  end.

(** Number of calls of a log that satisfy [p]. *)
Definition countCalls (p : io_call → bool) (calls : list io_call) : nat :=
  length (filter (fun c => p c = true) calls).

(** The token list is empty or ends with an absent token. *)
Definition endsAbsent (tokens : list (option string)) : Prop :=
  tokens = [] ∨ ∃ pre t, tokens = pre ++ [t] ∧ presentToken t = None.

(** * Further sample data *)

Definition msg_m7 : obj :=
  list_to_map [ ("id", VStr "m7"); ("chat", VStr "c1"); ("sender", VStr "u1");
                ("content", VStr "hi") ].

Definition ack_stored : ack_payload :=
  {| ack_ok := VBool true; ack_message := Some msg_m7; ack_error := VUndefined |}.

Definition msg_m5 : obj :=
  list_to_map [ ("id", VStr "m5"); ("chat", VStr "c5"); ("sender", VStr "u2") ].

Definition status_m1_seen : status_event :=
  {| messageId := VStr "m1"; userId := VStr "u2"; status := VStr "seen" |}.

Definition status_m1_delivered : status_event :=
  {| messageId := VStr "m1"; userId := VStr "u3"; status := VStr "delivered" |}.

Definition typing_c1 : typing_event :=
  {| typing_chatId := VStr "c1"; typing_flag := VBool true |}.

Definition member_u1 : value := VObj {[ "id" := VStr "u1" ]}.
Definition member_u2 : value :=
  VObj (list_to_map [ ("_id", VStr "u2"); ("name", VStr "Bo") ]).

Definition chat_direct : obj :=
  list_to_map [ ("id", VStr "c1"); ("members", VArr [member_u1; member_u2]) ].

Definition state3 : state :=
  mkState [chat_direct; chat_c2] (Some chat_direct) (Some user_u1) [] "" ∅
          true false [] [] [].

Definition presence_u2 : presence_event :=
  {| presence_userId := VStr "u2"; presence_isOnline := VBool true;
     presence_lastSeen := VStr "2024-01-01T00:00:00.000Z" |}.

Definition form_empty : form := mkForm "bo" [] false "" [].

Definition form_group : form :=
  mkForm "" [] true " team " [VStr "u2"; VStr "u3"].

Definition chat_c2_server : obj :=
  list_to_map [ ("_id", VStr "c2"); ("name", VStr "from server") ].

Definition elapsed_90min (lastSeen : value) : option Z := Some 5400000.

Definition member_u2_away : value :=
  VObj (list_to_map [ ("_id", VStr "u2"); ("name", VStr "Bo");
                      ("lastSeen", VStr "2024-01-01T00:00:00.000Z") ]).

Definition chat_away : obj :=
  list_to_map [ ("id", VStr "c1"); ("members", VArr [member_u1; member_u2_away]) ].

(** A socket that comes up during the third polling delay. *)
Definition socket_late : socket_view :=
  {| connected_after := fun n => (3 <=? n)%nat; connecting := false;
     disconnected := true |}.

Definition sample_session : list action :=
  [ChatsLoaded None (RespArray [chat_c1; chat_c2; chat_c1_dup]);
   Arrive (MessageNew true msg_m2); Typing typing_c1;
   ChatAdopted true chat_c2_server;
   Arrive (ChatCreated (Some chat_c2))].

(** * Properties *)

(** ** Counting entries by canonical id *)

Lemma count_id_nil k : count_id k [] = 0%nat.
Proof. reflexivity. Qed.

Lemma count_id_cons k c l :
  count_id k (c :: l) =
  ((if bool_decide (canonical_id c = k) then 1 else 0) + count_id k l)%nat.
Proof.
  unfold count_id. rewrite filter_cons.
  case_bool_decide; case_decide; simpl; congruence.
Qed.

Lemma count_id_app k l1 l2 :
  count_id k (l1 ++ l2) = (count_id k l1 + count_id k l2)%nat.
Proof. unfold count_id. by rewrite filter_app, length_app. Qed.

Lemma count_id_map (f : obj → obj) k l :
  (∀ c, c ∈ l → canonical_id (f c) = canonical_id c) →
  count_id k (map f l) = count_id k l.
Proof.
  induction l as [|c l IH]; intros Hf; [done|].
  simpl. rewrite !count_id_cons, Hf by left.
  f_equal. apply IH. intros c' Hc'. apply Hf. by right.
Qed.

Lemma has_id_false k l : has_id k l = false ↔ count_id k l = 0%nat.
Proof.
  induction l as [|c l IH]; [done|].
  unfold has_id in *. simpl. rewrite count_id_cons, orb_false_iff, IH.
  case_bool_decide; split; intros; try lia; intuition congruence.
Qed.

Lemma has_id_true k l : has_id k l = true ↔ (0 < count_id k l)%nat.
Proof.
  destruct (has_id k l) eqn:E.
  - split; [intros _|done]. destruct (count_id k l) eqn:E'; [|lia].
    apply has_id_false in E'. congruence.
  - apply has_id_false in E. split; [done|lia].
Qed.

(** ** The thread under [message:new] *)

Lemma appendIncoming_count message prev :
  count_id (canonical_id message) (appendIncoming message prev) =
  Nat.max 1 (count_id (canonical_id message) prev).
Proof.
  unfold appendIncoming.
  destruct (has_id _ prev) eqn:E.
  - apply has_id_true in E. lia.
  - apply has_id_false in E.
    rewrite count_id_app, E, count_id_cons, count_id_nil.
    by rewrite bool_decide_eq_true_2.
Qed.

Lemma appendIncoming_idem message prev :
  appendIncoming message (appendIncoming message prev) = appendIncoming message prev.
Proof.
  unfold appendIncoming at 1.
  assert (has_id (canonical_id message) (appendIncoming message prev) = true) as ->; [|done].
  apply has_id_true. rewrite appendIncoming_count. lia.
Qed.

Lemma handleNewMessage_active connected message st :
  active (handleNewMessage connected message st) = active st.
Proof.
  unfold handleNewMessage.
  repeat (case_match; simpl; try done).
Qed.

Lemma handleNewMessage_messages connected message st :
  messages (handleNewMessage connected message st) =
  if truthy (messageChatId message)
     && isActiveChat (messageChatId message) (active st)
  then appendIncoming message (messages st)
  else messages st.
Proof.
  unfold handleNewMessage.
  destruct (truthy (messageChatId message)); simpl; [|done].
  destruct (isActiveChat _ _); simpl;
    destruct (upsertFromIncomingMessage _ _ _) as [next fetch] eqn:E;
    repeat (case_match; simpl in *; try done).
Qed.

Lemma handleNewMessage_to_active connected message st :
  deliveredToActive st message →
  messages (handleNewMessage connected message st) =
  appendIncoming message (messages st).
Proof.
  intros [H1 H2]. by rewrite handleNewMessage_messages, H1, H2.
Qed.

Lemma deliverAll_active st evs : active (deliverAll st evs) = active st.
Proof.
  revert st. induction evs as [|e evs IH]; intros st; [done|].
  simpl. unfold deliverAll in IH. by rewrite IH, handleNewMessage_active.
Qed.

Lemma deliverAll_count st k evs :
  Forall (fun e => canonical_id e.2 = k ∧ deliveredToActive st e.2) evs →
  count_id k (messages (deliverAll st evs)) =
  match evs with
  | [] => count_id k (messages st)
  | _ => Nat.max 1 (count_id k (messages st))
  end.
Proof.
  revert st. induction evs as [|[c m] evs IH]; intros st Hall; [done|].
  apply Forall_cons in Hall as [[Hk Hact] Hall]. simpl in *.
  change (foldl _ ?s evs) with (deliverAll s evs).
  rewrite IH.
  - rewrite handleNewMessage_to_active by done. subst k.
    rewrite appendIncoming_count. destruct evs; lia.
  - eapply Forall_impl; [exact Hall|]. intros e [? [? ?]].
    split; [done|]. split; [done|]. by rewrite handleNewMessage_active.
Qed.

(** C1. Take any non-empty sequence of [message:new] events that all
    carry the canonical id [k] and are delivered to the active chat.
    Afterwards the thread holds one entry with id [k] if it held none,
    and as many as before otherwise; so a thread that held at most one
    such entry holds exactly one. Delivering any of these events once
    more leaves the thread as it is. *)
Theorem duplicate_message_new_single_entry
    (st : state) (k : string) (evs : list (bool * obj)) :
  evs ≠ [] →
  Forall (fun e => canonical_id e.2 = k ∧ deliveredToActive st e.2) evs →
  let st' := deliverAll st evs in
  count_id k (messages st') = Nat.max 1 (count_id k (messages st)) ∧
  ((count_id k (messages st) ≤ 1)%nat → count_id k (messages st') = 1%nat) ∧
  (∀ c m, (c, m) ∈ evs →
     messages (handleNewMessage c m st') = messages st').
Proof.
  intros Hne Hall st'.
  assert (Hcount : count_id k (messages st') =
                   Nat.max 1 (count_id k (messages st))).
  { subst st'. rewrite (deliverAll_count st k evs Hall). by destruct evs. }
  split_and!; [done|lia|].
  intros c m Hin.
  rewrite Forall_forall in Hall. destruct (Hall _ Hin) as [Hk [Ht Ha]].
  simpl in *.
  rewrite handleNewMessage_to_active
    by (split; [done|subst st'; by rewrite deliverAll_active]).
  unfold appendIncoming.
  assert (has_id (canonical_id m) (messages st') = true) as ->; [|done].
  apply has_id_true. rewrite Hk, Hcount. lia.
Qed.

Lemma duplicate_message_new_single_entry_witness :
  count_id "m1" (messages (deliverAll state0 [(true, msg_m1); (true, msg_m1)])) = 1%nat.
Proof.
  destruct (duplicate_message_new_single_entry state0 "m1"
              [(true, msg_m1); (true, msg_m1)]) as (_ & H & _).
  - done.
  - repeat constructor.
  - apply H. vm_compute. lia.
Defined.

(** C10. A [message:new] payload with neither a [chat] nor a [chatId]
    member leaves the whole state as it is: thread, chat list, unread
    counters, and the log of socket emissions (so no delivered or seen
    acknowledgment goes out) and of started fetches. *)
Theorem message_new_without_chat_id_is_noop
    (connected : bool) (message : obj) (st : state) :
  message !! "chat" = None →
  message !! "chatId" = None →
  handleNewMessage connected message st = st.
Proof.
  intros Hchat HchatId. unfold handleNewMessage, messageChatId, get.
  by rewrite Hchat, HchatId.
Qed.

Lemma message_new_without_chat_id_is_noop_witness :
  handleNewMessage true {[ "id" := VStr "m9" ]} state0 = state0.
Proof.
  apply (message_new_without_chat_id_is_noop true {[ "id" := VStr "m9" ]} state0);
    reflexivity.
Defined.

(** ** The chat list under concurrent inserts *)

Lemma canonical_id_insert key v (o : obj) :
  key ≠ "id" → key ≠ "_id" →
  canonical_id (<[key := v]> o) = canonical_id o.
Proof.
  intros H1 H2. unfold canonical_id, raw_id, get.
  by rewrite !lookup_insert_ne.
Qed.

Lemma insert_if_absent_count k chat prev :
  canonical_id chat = k →
  count_id k (if has_id k prev then prev else chat :: prev) =
  Nat.max 1 (count_id k prev).
Proof.
  intros Hk. destruct (has_id k prev) eqn:E.
  - apply has_id_true in E. lia.
  - apply has_id_false in E.
    by rewrite count_id_cons, E, bool_decide_eq_true_2.
Qed.

Lemma upsertFromIncomingMessage_count k message chatId prev :
  String_ chatId = k →
  truthy (get message "chatInfo") = true →
  canonical_id (spread (get message "chatInfo")) = k →
  count_id k (upsertFromIncomingMessage message chatId prev).1 =
  Nat.max 1 (count_id k prev).
Proof.
  intros Hid Hinfo Hk. unfold upsertFromIncomingMessage.
  rewrite Hid, Hinfo, canonical_id_insert, Hk by done.
  destruct (has_id k prev) eqn:E; simpl.
  - rewrite count_id_map.
    + apply has_id_true in E. lia.
    + intros c _. case_bool_decide; [|done]. by apply canonical_id_insert.
  - apply has_id_false in E.
    rewrite count_id_cons, canonical_id_insert, Hk, E by done.
    by rewrite bool_decide_eq_true_2.
Qed.

Lemma upsertFromChatCreatedEvent_count chat prev :
  count_id (canonical_id chat) (upsertFromChatCreatedEvent chat prev) =
  Nat.max 1 (count_id (canonical_id chat) prev).
Proof.
  unfold upsertFromChatCreatedEvent.
  destruct (has_id _ prev) eqn:E.
  - rewrite count_id_map.
    + apply has_id_true in E. lia.
    + intros c _. by case_bool_decide.
  - apply has_id_false in E.
    by rewrite count_id_cons, E, bool_decide_eq_true_2.
Qed.

Lemma handleNewMessage_chats connected message st :
  truthy (messageChatId message) = true →
  chats (handleNewMessage connected message st) =
  (upsertFromIncomingMessage message (messageChatId message) (chats st)).1.
Proof.
  intros Ht. unfold handleNewMessage. rewrite Ht. simpl.
  destruct (isActiveChat _ _), connected,
    (negb (bool_decide (String_ (get message "sender") =
                        String_ (get_opt (user st) "id")))); simpl;
    destruct (upsertFromIncomingMessage _ _ _) as [next [|]]; done.
Qed.

Lemma step_trigger_count k st e :
  insertTriggerFor k e →
  count_id k (chats (step st e)) = Nat.max 1 (count_id k (chats st)).
Proof.
  destruct e as [c m|chat|[chat|]|ev]; simpl; try done.
  - intros (Ht & Hid & Hinfo & Hk).
    rewrite handleNewMessage_chats by done.
    by apply upsertFromIncomingMessage_count.
  - intros Hk. unfold insertFetchedChat. rewrite Hk.
    by apply insert_if_absent_count.
  - intros <-. apply upsertFromChatCreatedEvent_count.
Qed.

Lemma run_triggers_count k evs st :
  Forall (insertTriggerFor k) evs →
  count_id k (chats (run st evs)) =
  match evs with
  | [] => count_id k (chats st)
  | _ => Nat.max 1 (count_id k (chats st))
  end.
Proof.
  revert st. induction evs as [|e evs IH]; intros st Hall; [done|].
  apply Forall_cons in Hall as [He Hall]. simpl.
  change (foldl step ?s evs) with (run s evs).
  rewrite IH, step_trigger_count by done. destruct evs; lia.
Qed.

Lemma has_id_false_fmap k l : has_id k l = false ↔ k ∉ canonical_id <$> l.
Proof.
  rewrite has_id_false. induction l as [|c l IH]; simpl.
  - split; [intros _; apply not_elem_of_nil|done].
  - rewrite count_id_cons, not_elem_of_cons.
    case_bool_decide; split; intros; try lia; intuition (try congruence; lia).
Qed.

Lemma fmap_canonical_id_map (f : obj → obj) l :
  (∀ c, canonical_id (f c) = canonical_id c) →
  canonical_id <$> map f l = canonical_id <$> l.
Proof.
  intros Hf. induction l as [|c l IH]; [done|].
  change (map f (c :: l)) with (f c :: map f l).
  by rewrite !fmap_cons, Hf, IH.
Qed.

Lemma insert_if_absent_unique chat prev :
  NoDup (canonical_id <$> prev) →
  NoDup (canonical_id <$>
           (if has_id (canonical_id chat) prev then prev else chat :: prev)).
Proof.
  intros Hnd. destruct (has_id _ prev) eqn:E; [done|].
  rewrite fmap_cons. constructor; [by apply has_id_false_fmap|done].
Qed.

(** Every arrival, whatever its payload, keeps the canonical ids of the
    chat list pairwise distinct. *)
Lemma step_preserves_unique_ids st e :
  NoDup (canonical_id <$> chats st) → NoDup (canonical_id <$> chats (step st e)).
Proof.
  intros Hnd. destruct e as [c m|chat|[chat|]|ev]; simpl; try done.
  - destruct (truthy (messageChatId m)) eqn:Ht.
    + rewrite handleNewMessage_chats by done. unfold upsertFromIncomingMessage.
      destruct (has_id (String_ (messageChatId m)) (chats st)); simpl.
      * rewrite fmap_canonical_id_map; [done|].
        intros d. case_bool_decide; [|done]. by apply canonical_id_insert.
      * destruct (truthy (get m "chatInfo")); [|done].
        match goal with
        | |- context [has_id (canonical_id ?x) _] =>
            pose proof (insert_if_absent_unique x (chats st) Hnd) as Hins;
            by destruct (has_id (canonical_id x) (chats st))
        end.
    + unfold handleNewMessage. by rewrite Ht.
  - by apply insert_if_absent_unique.
  - unfold upsertFromChatCreatedEvent.
    destruct (has_id (canonical_id chat) (chats st)) eqn:E.
    + rewrite fmap_canonical_id_map; [done|]. intros d. by case_bool_decide.
    + rewrite fmap_cons. constructor; [by apply has_id_false_fmap|done].
  - unfold statusUpdateChats. rewrite fmap_canonical_id_map; [done|].
    intros d. simpl. repeat case_match; try done. by apply canonical_id_insert.
Qed.

Lemma run_preserves_unique_ids st evs :
  NoDup (canonical_id <$> chats st) → NoDup (canonical_id <$> chats (run st evs)).
Proof.
  revert st. induction evs as [|e evs IH]; intros st Hnd; [done|].
  simpl. apply IH. by apply step_preserves_unique_ids.
Qed.

(** C2. Whatever the order in which insert triggers for one canonical
    chat id [k] arrive (the [message:new] insert from embedded chat
    info, the completion of the fetch, [chat:created]), two of them or
    more, the chat list afterwards holds one entry with id [k] if it
    held none, and as many as before otherwise; so for a new id, and for
    a list that held at most one such entry, it holds exactly one. *)
Theorem chat_insert_race_single_entry
    (st : state) (k : string) (evs : list event) :
  evs ≠ [] →
  Forall (insertTriggerFor k) evs →
  count_id k (chats (run st evs)) = Nat.max 1 (count_id k (chats st)) ∧
  ((count_id k (chats st) ≤ 1)%nat → count_id k (chats (run st evs)) = 1%nat).
Proof.
  intros Hne Hall.
  rewrite run_triggers_count by done. destruct evs; [done|lia].
Qed.

Lemma chat_insert_race_single_entry_witness :
  count_id "c2"
    (chats (run state0 [FetchChatDone chat_c2; MessageNew true msg_m2;
                        ChatCreated (Some chat_c2)])) = 1%nat.
Proof.
  destruct (chat_insert_race_single_entry state0 "c2"
              [FetchChatDone chat_c2; MessageNew true msg_m2;
               ChatCreated (Some chat_c2)]) as (_ & H).
  - done.
  - repeat constructor.
  - apply H. vm_compute. lia.
Defined.

(** ** Activation of a chat *)

Lemma clearUnread_zero cid prev : unread_or0 (clearUnread cid prev) cid = 0.
Proof.
  unfold clearUnread. destruct (unread_or0 prev cid =? 0) eqn:E.
  - by apply Z.eqb_eq.
  - unfold unread_or0. by rewrite lookup_delete_eq.
Qed.

Lemma clearUnread_other cid id prev :
  id ≠ cid → clearUnread cid prev !! id = prev !! id.
Proof.
  intros Hne. unfold clearUnread. case_match; [done|].
  by rewrite lookup_delete_ne.
Qed.

Lemma markSeenIds_spec usr msgs v :
  v ∈ markSeenIds usr msgs ↔
  truthy v = true ∧
  ∃ m, m ∈ msgs ∧
       String_ (get m "sender") ≠ String_ (get_opt usr "id") ∧
       raw_id m = v.
Proof.
  unfold markSeenIds. rewrite list_elem_of_filter, list_elem_of_fmap.
  split.
  - intros [Ht [m [-> Hm]]]. apply list_elem_of_filter in Hm as [Hs Hm]. eauto.
  - intros [Ht [m (Hm & Hs & <-)]]. split; [done|].
    exists m. split; [done|]. by apply list_elem_of_filter.
Qed.

(** C3, as the code has it. Activating a chat leaves its unread counter
    at zero and touches no other counter. With a socket and at least one
    cached message of another sender that has a truthy id, exactly one
    [message:seen] batch is emitted, with the ids of all those messages
    in thread order; without a socket, or without such a message, nothing
    is emitted. *)
Theorem activation_clears_unread_and_marks_seen
    (has_socket : bool) (st : state) (a : obj) :
  active st = Some a →
  let st' := clearUnreadAndMarkSeen has_socket st in
  let ids := markSeenIds (user st) (messages st) in
  unread_or0 (unreadCounts st') (canonical_id a) = 0 ∧
  (∀ id, id ≠ canonical_id a → unreadCounts st' !! id = unreadCounts st !! id) ∧
  (∀ v, v ∈ ids ↔
        truthy v = true ∧
        ∃ m, m ∈ messages st ∧
             String_ (get m "sender") ≠ String_ (get_opt (user st) "id") ∧
             raw_id m = v) ∧
  (has_socket = true → ids ≠ [] →
   emitted st' =
   emitted st ++ [Emit "message:seen" (VObj {[ "messageIds" := VArr ids ]})]) ∧
  (has_socket = false ∨ ids = [] → emitted st' = emitted st).
Proof.
  intros Ha st' ids. subst st'. unfold clearUnreadAndMarkSeen. rewrite Ha.
  fold ids.
  assert (Hunread : ∀ b : bool,
    unreadCounts
      (if b
       then socket_do (Emit "message:seen" (VObj {[ "messageIds" := VArr ids ]}))
              (setUnreadCounts (clearUnread (canonical_id a)) st)
       else setUnreadCounts (clearUnread (canonical_id a)) st) =
    clearUnread (canonical_id a) (unreadCounts st)) by (by intros []).
  rewrite Hunread. split_and!.
  - apply clearUnread_zero.
  - intros id Hne. by apply clearUnread_other.
  - intros v. apply markSeenIds_spec.
  - intros -> Hids. destruct ids; [done|]. done.
  - intros [-> | ->]; [|done]. by rewrite andb_false_r.
Qed.

Lemma activation_clears_unread_and_marks_seen_witness :
  unread_or0 (unreadCounts (clearUnreadAndMarkSeen true state1)) "c1" = 0 ∧
  emitted (clearUnreadAndMarkSeen true state1) =
  [Emit "message:seen" (VObj {[ "messageIds" := VArr [VStr "m1"] ]})].
Proof.
  destruct (activation_clears_unread_and_marks_seen true state1 chat_c1 eq_refl)
    as (H1 & _ & _ & H2 & _).
  split; [exact H1|]. apply H2; [reflexivity|]. vm_compute. discriminate.
Defined.

(** C3 as stated fails: activating a chat while the thread holds no
    message of another sender emits no [message:seen] batch at all. *)
Lemma activation_without_incoming_emits_nothing :
  active state0 = Some chat_c1 ∧
  ¬ ∃ ids,
      emitted (clearUnreadAndMarkSeen true state0) =
      emitted state0 ++ [Emit "message:seen" (VObj {[ "messageIds" := VArr ids ]})].
Proof.
  split; [reflexivity|]. intros [ids H]. vm_compute in H. discriminate.
Qed.

(** ** Acknowledgment of a send *)

Lemma removeOptimistic_spec tempId prev m :
  m ∈ removeOptimistic tempId prev ↔ m ∈ prev ∧ get m "id" ≠ VStr tempId.
Proof.
  unfold removeOptimistic. rewrite list_elem_of_filter.
  assert (strict_eq_str (get m "id") tempId = false ↔ get m "id" ≠ VStr tempId).
  { unfold strict_eq_str. destruct (get m "id"); try (split; [discriminate|done]).
    case_bool_decide; split; congruence. }
  tauto.
Qed.

(** C4, as the code has it. When the acknowledgment has a falsy [ok] and
    a truthy [error], the thread afterwards is the previous thread
    without the entries whose id is the temporary id of that send:
    nothing is added, every other entry stays, and an alert is raised. *)
Theorem error_ack_removes_optimistic
    (tempId : string) (a : ack_payload) (st : state) :
  isErrorAck a →
  let st' := ackCallback tempId (Some a) st in
  (∀ m, m ∈ messages st' ↔ m ∈ messages st ∧ get m "id" ≠ VStr tempId) ∧
  messages st' `sublist_of` messages st ∧
  alerts st' = alerts st ++ ["Message failed: " +:+ String_ (ack_error a)].
Proof.
  intros [Hok Herr]. simpl. unfold ackCallback. rewrite Hok, Herr. simpl.
  split_and!; [|apply sublist_filter|done].
  intros m. apply removeOptimistic_spec.
Qed.

Lemma error_ack_removes_optimistic_witness :
  messages (ackCallback "temp-1" (Some ack_failed) state_sent) `sublist_of`
    messages state_sent ∧
  alerts (ackCallback "temp-1" (Some ack_failed) state_sent) =
    alerts state_sent ++ ["Message failed: denied"].
Proof.
  destruct (error_ack_removes_optimistic "temp-1" ack_failed state_sent)
    as (_ & H1 & H2).
  - split; reflexivity.
  - split; [exact H1|exact H2].
Defined.

(** C4 as stated fails: an acknowledgment [{ok: false}] that carries no
    [error] takes the "unexpected format" branch, and the optimistic
    entry of that send stays in the thread. *)
Lemma ack_ok_false_without_error_keeps_optimistic :
  truthy (ack_ok ack_refused) = false ∧
  (∃ m, messages state_sent = [m] ∧
        get m "id" = VStr "temp-1" ∧ get m "optimistic" = VBool true) ∧
  ackCallback "temp-1" (Some ack_refused) state_sent = state_sent.
Proof.
  split; [reflexivity|]. split; [|reflexivity].
  eexists. split; [vm_compute; reflexivity|]. split; reflexivity.
Qed.

(** ** Preconditions of [send] *)

Lemma trimStart_all_ws s : all_ws (trimStart s) = all_ws s.
Proof.
  induction s as [|c r IH]; [done|]. simpl.
  destruct (is_ws c) eqn:E; [done|]. simpl. by rewrite E.
Qed.

Lemma trimEnd_empty s : trimEnd s = "" ↔ all_ws s = true.
Proof.
  induction s as [|c r IH]; [done|]. simpl.
  destruct (is_ws c); simpl; [|done].
  destruct (String.eqb (trimEnd r) "") eqn:E.
  - apply String.eqb_eq in E. by rewrite <- IH.
  - apply String.eqb_neq in E. split; [done|]. intros H. by apply IH in H.
Qed.

Lemma trim_empty s : String.eqb (trim s) "" = all_ws s.
Proof.
  unfold trim. rewrite <- trimStart_all_ws.
  destruct (all_ws (trimStart s)) eqn:E.
  - apply trimEnd_empty in E. by rewrite E.
  - apply String.eqb_neq. intros H. apply trimEnd_empty in H. congruence.
Qed.

Lemma waitLoop_spec sk fuel n :
  (n ≤ maxPolls)%nat → (maxPolls - n < fuel)%nat →
  ∃ n' broke,
    waitLoop fuel sk n (checkInterval * Z.of_nat n) = Some (n', checkInterval * Z.of_nat n', broke) ∧
    (n ≤ n' ≤ maxPolls)%nat ∧
    (connected_after sk n' = false → n' = maxPolls ∧ broke = false) ∧
    (∀ i, (n ≤ i < n')%nat → connected_after sk i = false).
Proof.
  change maxPolls with 25%nat.
  revert n. induction fuel as [|fuel IH]; intros n Hn Hfuel; [lia|].
  simpl. destruct (connected_after sk n) eqn:Hc; simpl.
  { exists n, false. split_and!; [done|lia|lia|congruence|lia]. }
  destruct (checkInterval * Z.of_nat n <? maxWait) eqn:Hw.
  - apply Z.ltb_lt in Hw. unfold checkInterval, maxWait in Hw.
    replace (checkInterval * Z.of_nat n + checkInterval) with (checkInterval * Z.of_nat (S n))
      by (unfold checkInterval; lia).
    destruct (connected_after sk (S n)) eqn:Hc'.
    + exists (S n), true. split_and!; [done|lia|lia|congruence|].
      intros i Hi. by replace i with n by lia.
    + destruct (IH (S n)) as (n' & broke & Heq & Hle & Hlast & Hprev); [lia|lia|].
      exists n', broke. split_and!; [done|lia|lia|done|].
      intros i Hi. destruct (decide (i = n)) as [->|]; [done|]. apply Hprev. lia.
  - apply Z.ltb_ge in Hw. unfold checkInterval, maxWait in Hw.
    exists n, false. split_and!; [done|lia|lia| |lia].
    intros _. split; [lia|done].
Qed.

Lemma awaitConnection_spec sk :
  ∃ n broke,
    awaitConnection sk = Some (n, checkInterval * Z.of_nat n, broke) ∧
    (n ≤ maxPolls)%nat ∧
    (connected_after sk n = false → n = maxPolls ∧ broke = false) ∧
    (∀ i, (i < n)%nat → connected_after sk i = false).
Proof.
  destruct (waitLoop_spec sk (Z.to_nat (maxWait / checkInterval) + 1) 0)
    as (n & broke & Heq & Hle & Hlast & Hprev).
  - lia.
  - change maxPolls with 25%nat. vm_compute. lia.
  - exists n, broke. split_and!; [exact Heq|lia|done|].
    intros i Hi. apply Hprev. lia.
Qed.

(** C5. [send] needs an active chat, input that is not all white space,
    and a connected socket. Without an active chat, or with empty or
    white-space-only input, it returns the state as it is (no optimistic
    entry, no emission). On a disconnected socket the wait ends after at
    most [maxWait = 5000] ms counted in steps of [checkInterval = 200];
    if the socket is still disconnected after all of them, the thread is
    unchanged, no [message:send] goes out and the failure alert is shown.
    Conversely the thread changes only if a chat is active, the input has
    content, and the socket was seen connected within the wait. *)
Theorem send_requires_chat_content_connection
    (socket : option socket_view) (now : Z) (iso : string) (st : state) :
  let st' := send socket now iso st in
  (active st = None → st' = st) ∧
  (all_ws (input st) = true → st' = st) ∧
  (∀ sk, socket = Some sk →
     ∃ n broke,
       awaitConnection sk = Some (n, checkInterval * Z.of_nat n, broke) ∧
       checkInterval * Z.of_nat n ≤ maxWait) ∧
  (∀ sk a, socket = Some sk → active st = Some a → all_ws (input st) = false →
     (∀ i, (i ≤ maxPolls)%nat → connected_after sk i = false) →
     awaitConnection sk = Some (maxPolls, maxWait, false) ∧
     messages st' = messages st ∧
     emitted st' =
       emitted st ++
       (if negb (connecting sk) && negb (disconnected sk) then [Connect] else []) ∧
     alerts st' = alerts st ++ [notConnectedAlert]) ∧
  (messages st' ≠ messages st →
     ∃ a sk n, active st = Some a ∧ all_ws (input st) = false ∧
               socket = Some sk ∧ (n ≤ maxPolls)%nat ∧
               connected_after sk n = true).
Proof.
  simpl. split_and!.
  - intros Ha. unfold send. by rewrite Ha.
  - intros Hws. unfold send. rewrite trim_empty, Hws. by destruct (active st).
  - intros sk _. destruct (awaitConnection_spec sk) as (n & broke & Heq & Hle & _).
    exists n, broke. split; [done|].
    revert Hle. change maxPolls with 25%nat. unfold checkInterval, maxWait. lia.
  - intros sk a -> Ha Hws Hdown.
    destruct (awaitConnection_spec sk) as (n & broke & Heq & Hle & Hlast & _).
    destruct (Hlast (Hdown n Hle)) as [-> ->].
    split; [exact Heq|].
    unfold send. rewrite Ha, trim_empty, Hws, (Hdown 0%nat) by lia.
    rewrite Heq, (Hdown maxPolls) by lia. simpl.
    destruct (negb (connecting sk) && negb (disconnected sk)); simpl;
      by rewrite ?app_nil_r.
  - unfold send. destruct (active st) as [a|] eqn:Ha; [|done].
    rewrite trim_empty. destruct (all_ws (input st)) eqn:Hws; [done|].
    destruct socket as [sk|]; [|done].
    destruct (connected_after sk 0) eqn:H0.
    { intros _. exists a, sk, 0%nat. split_and!; [done..|lia|done]. }
    destruct (awaitConnection_spec sk) as (n & broke & Heq & Hle & _).
    rewrite Heq. destruct (connected_after sk n) eqn:Hn; simpl.
    + intros _. exists a, sk, n. by split_and!.
    + by destruct broke, (negb (connecting sk) && negb (disconnected sk)).
Qed.

Lemma send_requires_chat_content_connection_witness :
  send (Some socket_up) 1 "" (setInput "   " state0) =
    setInput "   " state0 ∧
  messages (send (Some socket_down) 1 "" (setInput "hi" state0)) = [] ∧
  alerts (send (Some socket_down) 1 "" (setInput "hi" state0)) = [notConnectedAlert].
Proof.
  split.
  - apply (send_requires_chat_content_connection (Some socket_up) 1 ""
             (setInput "   " state0)).
    reflexivity.
  - destruct (send_requires_chat_content_connection (Some socket_down) 1 ""
                (setInput "hi" state0)) as (_ & _ & _ & H & _).
    destruct (H socket_down chat_c1) as (_ & Hm & _ & Ha);
      [reflexivity..|done|]. split; [exact Hm|exact Ha].
Defined.

(** ** Canonical identifier *)

Lemma canonical_id_absent (e : obj) :
  e !! "id" = None → e !! "_id" = None → canonical_id e = "undefined".
Proof.
  intros H1 H2. unfold canonical_id, raw_id, get. by rewrite H1, H2.
Qed.

(** C6, as the code has it. The canonical id is a function of the two id
    members alone. When both are absent it is the string ["undefined"],
    which is not empty and is the same for every such entity: two
    entities that lack both members have equal keys, and the second is
    dropped as a duplicate of the first by the [message:new] check. *)
Theorem canonical_id_of_missing_fields (e1 e2 : obj) :
  e1 !! "id" = None → e1 !! "_id" = None →
  e2 !! "id" = None → e2 !! "_id" = None →
  (∀ e e' : obj, get e "id" = get e' "id" → get e "_id" = get e' "_id" →
                 canonical_id e = canonical_id e') ∧
  canonical_id e1 = "undefined" ∧
  canonical_id e1 = canonical_id e2 ∧
  (∀ prev, e1 ∈ prev → appendIncoming e2 prev = prev).
Proof.
  intros H1 H1' H2 H2'.
  pose proof (canonical_id_absent e1 H1 H1') as Hc1.
  pose proof (canonical_id_absent e2 H2 H2') as Hc2.
  split_and!; [|done|congruence|].
  - intros e e' Hid Hid'. unfold canonical_id, raw_id. by rewrite Hid, Hid'.
  - intros prev Hin. unfold appendIncoming.
    assert (has_id (canonical_id e2) prev = true) as ->; [|done].
    unfold has_id. apply existsb_exists. exists e1.
    split; [by apply list_elem_of_In|]. apply bool_decide_eq_true. congruence.
Qed.

Lemma canonical_id_of_missing_fields_witness :
  canonical_id note_a = canonical_id note_b ∧
  appendIncoming note_b [note_a] = [note_a].
Proof.
  destruct (canonical_id_of_missing_fields note_a note_b)
    as (_ & _ & H1 & H2); [reflexivity..|].
  split; [exact H1|]. apply H2. by left.
Defined.

(** C6 as stated fails: the key of an entity without id members is
    neither empty nor distinct from other keys. It equals the key of
    another entity without id members and the key of an entity whose id
    is the string ["undefined"]; of two such messages delivered to the
    active chat the second is dropped as a duplicate, and [loadChats]
    drops both behind a chat whose id is ["undefined"]. *)
Lemma missing_id_key_collides :
  note_a !! "id" = None ∧ note_a !! "_id" = None ∧
  note_b !! "id" = None ∧ note_b !! "_id" = None ∧
  note_a ≠ note_b ∧
  canonical_id note_a ≠ "" ∧
  canonical_id note_a = canonical_id note_b ∧
  canonical_id note_a = canonical_id named_undefined ∧
  messages (handleNewMessage true note_b (handleNewMessage true note_a state0)) =
    [note_a] ∧
  uniqueChats [named_undefined; note_a; note_b] = [named_undefined].
Proof.
  split_and!; try reflexivity; discriminate.
Qed.

(** ** [decryptMessage] *)

(** C9. Whatever the two crypto-js calls do, [decryptMessage] returns a
    string and never throws; when either call throws, the string is the
    placeholder ["[Invalid Encrypted Data]"]; when both return, it is
    the text the library produced. *)
Theorem decryptMessage_never_throws
    {WordArray : Type}
    (AES_decrypt : value → string → completion WordArray)
    (toString_Utf8 : WordArray → completion string)
    (cipherText : value) :
  (∃ s, decryptMessage AES_decrypt toString_Utf8 cipherText = Return s) ∧
  ((∃ e, AES_decrypt cipherText MESSAGE_SECRET_KEY = Throw e) ∨
   (∃ bytes e, AES_decrypt cipherText MESSAGE_SECRET_KEY = Return bytes ∧
               toString_Utf8 bytes = Throw e) →
   decryptMessage AES_decrypt toString_Utf8 cipherText =
   Return "[Invalid Encrypted Data]") ∧
  (∀ bytes originalText,
     AES_decrypt cipherText MESSAGE_SECRET_KEY = Return bytes →
     toString_Utf8 bytes = Return originalText →
     decryptMessage AES_decrypt toString_Utf8 cipherText = Return originalText).
Proof.
  unfold decryptMessage.
  destruct (AES_decrypt cipherText MESSAGE_SECRET_KEY) as [bytes|e] eqn:Hd; simpl.
  - destruct (toString_Utf8 bytes) as [s|e] eqn:Hu; simpl.
    + split_and!; [by eexists| |].
      * intros [[e ?]|(b & e & Hb & He)]; [done|]. congruence.
      * intros b t [= <-] Ht. congruence.
    + split_and!; [by eexists|done|].
      intros b t [= <-] Ht. congruence.
  - split_and!; [by eexists|done|done].
Qed.

Lemma decryptMessage_never_throws_witness :
  decryptMessage sample_decrypt Return (VStr "hello") =
  Return "[Invalid Encrypted Data]".
Proof.
  destruct (decryptMessage_never_throws sample_decrypt Return (VStr "hello"))
    as (_ & H & _).
  apply H. left. by eexists.
Defined.

(** ** [loadChats] *)

Lemma foldl_dedupStep acc seen data :
  (foldl dedupStep (acc, seen) data).1 = acc ++ firstOccurrences seen data.
Proof.
  revert acc seen. induction data as [|c r IH]; intros acc seen; simpl.
  - by rewrite app_nil_r.
  - unfold dedupStep at 2. simpl. case_bool_decide; case_decide; try done.
    by rewrite IH, <- app_assoc.
Qed.

Lemma uniqueChats_firstOccurrences data :
  uniqueChats data = firstOccurrences ∅ data.
Proof. unfold uniqueChats. by rewrite foldl_dedupStep. Qed.

Lemma firstOccurrences_sublist seen data :
  firstOccurrences seen data `sublist_of` data.
Proof.
  revert seen. induction data as [|c r IH]; intros seen; simpl; [done|].
  case_decide; [by apply sublist_cons|by apply sublist_skip].
Qed.

Lemma firstOccurrences_fresh seen data c :
  c ∈ firstOccurrences seen data → canonical_id c ∉ seen.
Proof.
  revert seen. induction data as [|d r IH]; intros seen; simpl.
  - by intros ?%elem_of_nil.
  - case_decide as Hd; [by apply IH|].
    intros [->|Hin]%elem_of_cons; [done|].
    apply IH in Hin. intros Hs. apply Hin, elem_of_union. by right.
Qed.

Lemma firstOccurrences_NoDup seen data :
  NoDup (canonical_id <$> firstOccurrences seen data).
Proof.
  revert seen. induction data as [|d r IH]; intros seen; simpl.
  - constructor.
  - case_decide; [by apply IH|]. rewrite fmap_cons. constructor; [|by apply IH].
    intros (c & Hc & Hin)%list_elem_of_fmap.
    apply firstOccurrences_fresh in Hin. apply Hin, elem_of_union.
    left. apply elem_of_singleton. congruence.
Qed.

Lemma firstOccurrences_head k seen data :
  head (filter (fun c => canonical_id c = k) (firstOccurrences seen data)) =
  if decide (k ∈ seen) then None
  else head (filter (fun c => canonical_id c = k) data).
Proof.
  revert seen. induction data as [|d r IH]; intros seen; simpl.
  - by case_decide.
  - destruct (decide (canonical_id d ∈ seen)) as [Hd|Hd].
    + rewrite IH, filter_cons. case_decide; [done|].
      case_decide; [congruence|done].
    + rewrite !filter_cons.
      destruct (decide (canonical_id d = k)) as [<-|Hk]; simpl.
      * by rewrite decide_False.
      * rewrite IH. destruct (decide (k ∈ seen)) as [Hs|Hs].
        -- rewrite decide_True; [done|]. apply elem_of_union. by right.
        -- rewrite decide_False; [done|].
           intros [?%elem_of_singleton|?]%elem_of_union; congruence.
Qed.

(** C7. A bare-object response becomes the one-element chat list holding
    that object. An array response is deduplicated by canonical id: the
    new chat list has no two entries with the same id, keeps the order
    of the response, and for each id holds the first chat of the response
    with that id. When the effect saw no active chat, the first entry of
    the new list becomes active; otherwise the active chat is left
    alone. *)
Theorem loadChats_coerces_and_dedups (active0 : option obj) (st : state) :
  (∀ data : obj,
     let st' := loadChats active0 (RespObject data) st in
     chats st' = [data] ∧
     (active0 = None → active st' = Some data) ∧
     (is_Some active0 → active st' = active st)) ∧
  (∀ data : list obj,
     let st' := loadChats active0 (RespArray data) st in
     chats st' = firstOccurrences ∅ data ∧
     NoDup (canonical_id <$> chats st') ∧
     chats st' `sublist_of` data ∧
     (∀ k, head (filter (fun c => canonical_id c = k) (chats st')) =
           head (filter (fun c => canonical_id c = k) data)) ∧
     (∀ first, active0 = None → head (chats st') = Some first →
               active st' = Some first) ∧
     (is_Some active0 → active st' = active st)).
Proof.
  split.
  - intros data. simpl. destruct active0; simpl.
    + split_and!; [done|done|done].
    + split_and!; [done|done|by intros [? ?]].
  - intros data. cbv zeta.
    assert (Hchats : chats (loadChats active0 (RespArray data) st) =
                     firstOccurrences ∅ data).
    { unfold loadChats. rewrite uniqueChats_firstOccurrences.
      by destruct (firstOccurrences ∅ data), active0. }
    rewrite Hchats. split_and!.
    + done.
    + apply firstOccurrences_NoDup.
    + apply firstOccurrences_sublist.
    + intros k. rewrite firstOccurrences_head.
      by rewrite decide_False by apply not_elem_of_empty.
    + intros first -> Hhead. unfold loadChats.
      rewrite uniqueChats_firstOccurrences.
      destruct (firstOccurrences ∅ data); simpl in *; congruence.
    + intros [a ->]. unfold loadChats.
      by destruct (uniqueChats data).
Qed.

Lemma loadChats_coerces_and_dedups_witness :
  chats (loadChats None (RespObject chat_c1) state_fresh) = [chat_c1] ∧
  chats (loadChats None (RespArray [chat_c1; chat_c2; chat_c1_dup]) state_fresh) =
    [chat_c1; chat_c2] ∧
  active (loadChats None (RespArray [chat_c2; chat_c1]) state_fresh) = Some chat_c2.
Proof.
  split_and!.
  - apply (loadChats_coerces_and_dedups None state_fresh).
  - apply (loadChats_coerces_and_dedups None state_fresh).
  - by apply (loadChats_coerces_and_dedups None state_fresh).
Defined.

(** ** [message:status] *)

Lemma patchStatus_patched ev old : statusPatched ev old (VObj (patchStatus old ev)).
Proof.
  exists (patchStatus old ev). unfold patchStatus. split_and!; [done|..].
  - by rewrite lookup_insert_eq.
  - intros u Hu. by rewrite lookup_insert_ne.
Qed.

Lemma map_unchanged {A} (f : A → A) (l : list A) :
  (∀ x, x ∈ l → f x = x) → map f l = l.
Proof.
  induction l as [|x l IH]; intros Hf; [done|]. simpl.
  rewrite Hf by left. f_equal. apply IH. intros y Hy. apply Hf. by right.
Qed.

Lemma statusUpdateMessages_unmatched ev prev :
  (∀ m, m ∈ prev → ¬ matchesMessage ev m) → statusUpdateMessages ev prev = prev.
Proof.
  intros Hno. apply map_unchanged. intros m Hm.
  rewrite bool_decide_eq_false_2; [done|]. by apply Hno.
Qed.

Lemma statusUpdateChats_unmatched ev prev :
  (∀ c, c ∈ prev → ¬ matchesLastMessage ev c) → statusUpdateChats ev prev = prev.
Proof.
  intros Hno. apply map_unchanged. intros c Hc. simpl.
  destruct (truthy (get c "lastMessage")) eqn:Ht; simpl; [|done].
  rewrite bool_decide_eq_false_2; [done|].
  intros Heq. by apply (Hno c Hc).
Qed.

Lemma statusUpdateMessages_lookup ev prev i m :
  prev !! i = Some m →
  ∃ m', statusUpdateMessages ev prev !! i = Some m' ∧
        (¬ matchesMessage ev m → m' = m) ∧
        (matchesMessage ev m →
         (∀ key, key ≠ "status" → m' !! key = m !! key) ∧
         ∃ new, m' !! "status" = Some new ∧ statusPatched ev (get m "status") new).
Proof.
  intros Hi. unfold statusUpdateMessages.
  rewrite list_lookup_fmap, Hi. simpl. eexists. split; [done|].
  unfold matchesMessage. case_bool_decide; simpl.
  - split; [congruence|]. intros _. split.
    + intros key Hkey. by rewrite lookup_insert_ne.
    + eexists. rewrite lookup_insert_eq. split; [done|]. apply patchStatus_patched.
  - split; [done|congruence].
Qed.

Lemma statusUpdateChats_lookup ev prev i c :
  prev !! i = Some c →
  ∃ c', statusUpdateChats ev prev !! i = Some c' ∧
        (¬ matchesLastMessage ev c → c' = c) ∧
        (matchesLastMessage ev c →
         (∀ key, key ≠ "lastMessage" → c' !! key = c !! key) ∧
         ∃ lm', c' !! "lastMessage" = Some (VObj lm') ∧
                (∀ key, key ≠ "status" →
                        lm' !! key = spread (get c "lastMessage") !! key) ∧
                ∃ new, lm' !! "status" = Some new ∧
                       statusPatched ev (get_prop (get c "lastMessage") "status") new).
Proof.
  intros Hi. unfold statusUpdateChats.
  rewrite list_lookup_fmap, Hi. simpl. eexists. split; [done|].
  unfold matchesLastMessage.
  destruct (truthy (get c "lastMessage")) eqn:Ht; simpl.
  - case_bool_decide; simpl.
    + split; [intros Hno; exfalso; by apply Hno|]. intros _. split.
      * intros key Hkey. by rewrite lookup_insert_ne.
      * eexists. rewrite lookup_insert_eq. split; [done|]. split.
        -- intros key Hkey. by rewrite lookup_insert_ne.
        -- eexists. rewrite lookup_insert_eq. split; [done|].
           apply patchStatus_patched.
    + split; [done|]. by intros [_ ?].
  - split; [done|]. by intros [? _].
Qed.

(** C8. A [message:status] event that names no message of the thread
    and no cached last message leaves the whole state as it is. In
    general the event keeps both lists at their length and every entry
    at its place; an entry it does not name is unchanged; in a message
    it names only the [status] member changes, and there only the entry
    of the event's user; in a chat whose last message it names only the
    [lastMessage] member changes, and in it only that same status
    entry. Nothing else of the state changes. *)
Theorem message_status_frame (ev : status_event) (st : state) :
  let st' := messageStatus ev st in
  ((∀ m, m ∈ messages st → ¬ matchesMessage ev m) →
   (∀ c, c ∈ chats st → ¬ matchesLastMessage ev c) →
   st' = st) ∧
  length (messages st') = length (messages st) ∧
  length (chats st') = length (chats st) ∧
  (∀ i m, messages st !! i = Some m →
     ∃ m', messages st' !! i = Some m' ∧
           (¬ matchesMessage ev m → m' = m) ∧
           (matchesMessage ev m →
            (∀ key, key ≠ "status" → m' !! key = m !! key) ∧
            ∃ new, m' !! "status" = Some new ∧
                   statusPatched ev (get m "status") new)) ∧
  (∀ i c, chats st !! i = Some c →
     ∃ c', chats st' !! i = Some c' ∧
           (¬ matchesLastMessage ev c → c' = c) ∧
           (matchesLastMessage ev c →
            (∀ key, key ≠ "lastMessage" → c' !! key = c !! key) ∧
            ∃ lm', c' !! "lastMessage" = Some (VObj lm') ∧
                   (∀ key, key ≠ "status" →
                           lm' !! key = spread (get c "lastMessage") !! key) ∧
                   ∃ new, lm' !! "status" = Some new ∧
                          statusPatched ev
                            (get_prop (get c "lastMessage") "status") new)) ∧
  (active st', user st', input st', unreadCounts st', emitted st', alerts st',
   fetches st') =
  (active st, user st, input st, unreadCounts st, emitted st, alerts st,
   fetches st).
Proof.
  cbv zeta. unfold messageStatus. split_and!.
  - intros Hm Hc. destruct st. unfold setChats, setMessages. simpl in *.
    by rewrite statusUpdateMessages_unmatched, statusUpdateChats_unmatched.
  - simpl. unfold statusUpdateMessages. by rewrite length_map.
  - simpl. unfold statusUpdateChats. by rewrite length_map.
  - intros i m Hi. by apply statusUpdateMessages_lookup.
  - intros i c Hi. by apply statusUpdateChats_lookup.
  - done.
Qed.

Lemma message_status_frame_witness :
  messageStatus status_unknown state2 = state2.
Proof.
  destruct (message_status_frame status_unknown state2) as (H & _).
  apply H.
  - intros m Hm. unfold matchesMessage.
    apply list_elem_of_In in Hm. simpl in Hm.
    destruct Hm as [<-|[<-|[]]]; vm_compute; discriminate.
  - intros c Hc. unfold matchesLastMessage.
    apply list_elem_of_In in Hc. simpl in Hc.
    destruct Hc as [<-|[]]. vm_compute. intros [_ ?]. discriminate.
Defined.

(** * Further properties of the code *)

(** ** Success acknowledgment against the pushed copy *)

Lemma optimistic_canonical_id tempId (m : obj) :
  tempId ≠ "" →
  strict_eq_str (get m "id") tempId = true → canonical_id m = tempId.
Proof.
  intros Hne H. unfold canonical_id, raw_id, js_or.
  destruct (get m "id") as [| | | |s| |]; simpl in *; try done.
  apply bool_decide_eq_true in H. subst s.
  destruct (String.eqb tempId "") eqn:E; [by apply String.eqb_eq in E|done].
Qed.

Lemma ackCallback_success tempId a real st :
  isSuccessAck a real →
  ackCallback tempId (Some a) st = setMessages (reconcileAck tempId real) st.
Proof. intros [Hok Hm]. unfold ackCallback. by rewrite Hok, Hm. Qed.

Lemma removeOptimistic_count tempId r prev :
  tempId ≠ "" → r ≠ tempId →
  count_id r (removeOptimistic tempId prev) = count_id r prev.
Proof.
  intros Hne Hr. induction prev as [|m prev IH]; [done|].
  unfold removeOptimistic in *. rewrite filter_cons.
  destruct (strict_eq_str (get m "id") tempId) eqn:E.
  - rewrite decide_False by done. rewrite IH, count_id_cons.
    rewrite bool_decide_eq_false_2; [done|].
    rewrite (optimistic_canonical_id tempId m) by done. congruence.
  - rewrite decide_True by done. by rewrite !count_id_cons, IH.
Qed.

Lemma replaceOptimistic_count tempId real prev :
  tempId ≠ "" → canonical_id real ≠ tempId →
  count_id (canonical_id real)
    (map (fun m => if strict_eq_str (get m "id") tempId then real else m) prev) =
  (length (optimisticEntries tempId prev) + count_id (canonical_id real) prev)%nat.
Proof.
  intros Hne Hr. induction prev as [|m prev IH]; [done|].
  simpl. unfold optimisticEntries in *. rewrite filter_cons, !count_id_cons, IH.
  destruct (strict_eq_str (get m "id") tempId) eqn:E.
  - rewrite decide_True by done. simpl.
    rewrite bool_decide_eq_true_2 by done.
    rewrite (bool_decide_eq_false_2 (canonical_id m = canonical_id real)); [lia|].
    rewrite (optimistic_canonical_id tempId m) by done. congruence.
  - rewrite decide_False by congruence. lia.
Qed.

Lemma reconcileAck_no_optimistic tempId real prev m :
  tempId ≠ "" → canonical_id real ≠ tempId →
  m ∈ reconcileAck tempId real prev → strict_eq_str (get m "id") tempId = false.
Proof.
  intros Hne Hr. unfold reconcileAck. case_match.
  - unfold removeOptimistic. by intros [? _]%list_elem_of_filter.
  - intros (m0 & -> & _)%list_elem_of_fmap.
    destruct (strict_eq_str (get m0 "id") tempId) eqn:E; [|done].
    destruct (strict_eq_str (get real "id") tempId) eqn:E'; [|done].
    by apply optimistic_canonical_id in E'.
Qed.

Lemma ackCallback_active tempId ack st :
  active (ackCallback tempId ack st) = active st.
Proof. unfold ackCallback. repeat case_match; done. Qed.

(** X1. The success acknowledgment of a send and the [message:new] copy
    of the same stored message may arrive in either order. If the thread
    holds at most one entry with the temporary id and none with the real
    id, then after both arrivals, in either order, it holds exactly one
    entry with the real id and no entry with the temporary id. *)
Theorem ack_and_push_in_either_order
    (tempId : string) (a : ack_payload) (real pushed : obj)
    (connected : bool) (st : state) :
  tempId ≠ "" →
  canonical_id real ≠ tempId →
  isSuccessAck a real →
  canonical_id pushed = canonical_id real →
  deliveredToActive st pushed →
  count_id (canonical_id real) (messages st) = 0%nat →
  (length (optimisticEntries tempId (messages st)) ≤ 1)%nat →
  let ackFirst := handleNewMessage connected pushed (ackCallback tempId (Some a) st) in
  let pushFirst := ackCallback tempId (Some a) (handleNewMessage connected pushed st) in
  count_id (canonical_id real) (messages ackFirst) = 1%nat ∧
  count_id (canonical_id real) (messages pushFirst) = 1%nat ∧
  optimisticEntries tempId (messages ackFirst) = [] ∧
  optimisticEntries tempId (messages pushFirst) = [].
Proof.
  intros Hne Hr Hack Hid Hact Hcount Hopt ackFirst pushFirst.
  assert (Hpushed : strict_eq_str (get pushed "id") tempId = false).
  { destruct (strict_eq_str (get pushed "id") tempId) eqn:E; [|done].
    apply optimistic_canonical_id in E; [congruence|done]. }
  assert (Hm1 : messages ackFirst =
                appendIncoming pushed (reconcileAck tempId real (messages st))).
  { subst ackFirst. rewrite handleNewMessage_to_active.
    - by rewrite (ackCallback_success tempId a real).
    - destruct Hact. split; [done|]. by rewrite ackCallback_active. }
  assert (Hm2 : messages pushFirst =
                reconcileAck tempId real (appendIncoming pushed (messages st))).
  { subst pushFirst. rewrite (ackCallback_success tempId a real) by done. simpl.
    by rewrite handleNewMessage_to_active. }
  assert (Hnone : ∀ l, (∀ m, m ∈ l → strict_eq_str (get m "id") tempId = false) →
                       optimisticEntries tempId l = []).
  { intros l Hl. unfold optimisticEntries. induction l as [|m l IH]; [done|].
    rewrite filter_cons, decide_False.
    - apply IH. intros m' Hm'. apply Hl. by right.
    - rewrite Hl by left. done. }
  split_and!.
  - rewrite Hm1, <- Hid, appendIncoming_count, Hid.
    unfold reconcileAck. change (String_ (raw_id real)) with (canonical_id real).
    assert (has_id (canonical_id real) (messages st) = false) as ->
      by by apply has_id_false.
    rewrite replaceOptimistic_count by done. lia.
  - rewrite Hm2. unfold reconcileAck.
    change (String_ (raw_id real)) with (canonical_id real).
    assert (has_id (canonical_id real) (appendIncoming pushed (messages st)) = true) as ->.
    { apply has_id_true. rewrite <- Hid, appendIncoming_count. lia. }
    rewrite removeOptimistic_count by done.
    rewrite <- Hid, appendIncoming_count, Hid, Hcount. done.
  - apply Hnone. intros m. rewrite Hm1. unfold appendIncoming. case_match.
    + by apply reconcileAck_no_optimistic.
    + intros [Hin|Hin]%elem_of_app.
      * by apply (reconcileAck_no_optimistic tempId real (messages st)).
      * apply list_elem_of_singleton in Hin. by subst m.
  - apply Hnone. intros m. rewrite Hm2. by apply reconcileAck_no_optimistic.
Qed.

Lemma ack_and_push_in_either_order_witness :
  count_id "m7"
    (messages (handleNewMessage true msg_m7
                 (ackCallback "temp-1" (Some ack_stored) state_sent))) = 1%nat ∧
  count_id "m7"
    (messages (ackCallback "temp-1" (Some ack_stored)
                 (handleNewMessage true msg_m7 state_sent))) = 1%nat.
Proof.
  destruct (ack_and_push_in_either_order "temp-1" ack_stored msg_m7 msg_m7 true
              state_sent) as (H1 & H2 & _).
  - done.
  - vm_compute. discriminate.
  - by split.
  - done.
  - by split.
  - reflexivity.
  - vm_compute. lia.
  - by split.
Defined.

(** ** What [send] puts on the wire *)

Lemma trimStart_split s :
  ∃ pre, s = pre +:+ trimStart s ∧ all_ws pre = true ∧
         startsWithWs (trimStart s) = false.
Proof.
  induction s as [|c r (pre & Heq & Hpre & Hst)].
  - by exists "".
  - simpl. destruct (is_ws c) eqn:E.
    + exists (String c pre). split_and!.
      * change (String c r = String c (pre +:+ trimStart r)). by f_equal.
      * simpl. by rewrite E.
      * done.
    + exists "". simpl. by rewrite E.
Qed.

Lemma trimEnd_split s :
  ∃ post, s = trimEnd s +:+ post ∧ all_ws post = true ∧
          endsWithWs (trimEnd s) = false.
Proof.
  induction s as [|c r (post & Heq & Hpost & Hend)].
  - by exists "".
  - simpl. destruct (is_ws c && String.eqb (trimEnd r) "") eqn:E.
    + apply andb_true_iff in E as [Hc He]. apply String.eqb_eq in He.
      exists (String c r). split_and!; [done| |done].
      rewrite He in Heq. simpl in Heq. simpl. by rewrite Hc, Heq.
    + exists post. split_and!.
      * change (String c r = String c (trimEnd r +:+ post)). by f_equal.
      * done.
      * destruct (trimEnd r) eqn:Er; [|done].
        simpl in E. rewrite andb_true_r in E. simpl. by rewrite E.
Qed.

Lemma trimEnd_startsWithWs s :
  startsWithWs s = false → startsWithWs (trimEnd s) = false.
Proof.
  destruct s as [|c r]; [done|]. simpl. intros Hc. by rewrite Hc.
Qed.

Lemma trim_split s :
  ∃ pre post,
    s = pre +:+ trim s +:+ post ∧ all_ws pre = true ∧ all_ws post = true ∧
    startsWithWs (trim s) = false ∧ endsWithWs (trim s) = false.
Proof.
  destruct (trimStart_split s) as (pre & Hs & Hpre & Hst).
  destruct (trimEnd_split (trimStart s)) as (post & Ht & Hpost & Hend).
  exists pre, post. unfold trim. split_and!; [|done|done| |done].
  - by rewrite <- Ht.
  - by apply trimEnd_startsWithWs.
Qed.

Lemma send_connected sk a now iso st :
  active st = Some a → all_ws (input st) = false → connected_after sk 0 = true →
  send (Some sk) now iso st = sendOptimistic a now iso st.
Proof.
  intros Ha Hws Hc. unfold send. by rewrite Ha, trim_empty, Hws, Hc.
Qed.

(** X2. On a connected socket, with an active chat, a signed-in user and
    input that is not all white space, [send] emits one [message:send]
    whose content is the input without its surrounding white space: the
    input is white space, then the content, then white space; the
    content is not empty and neither starts nor ends with white space.
    The optimistic entry appended to the thread carries the same content
    and the temporary id the acknowledgment callback is bound to, and
    the input box is cleared. *)
Theorem send_emits_trimmed_content
    (sk : socket_view) (a u : obj) (now : Z) (iso : string) (st : state) :
  connected_after sk 0 = true →
  active st = Some a →
  user st = Some u →
  all_ws (input st) = false →
  let st' := send (Some sk) now iso st in
  let tempId := "temp-" +:+ pretty now in
  ∃ content pre post optimisticMsg,
    input st = pre +:+ content +:+ post ∧
    all_ws pre = true ∧ all_ws post = true ∧
    content ≠ "" ∧ startsWithWs content = false ∧ endsWithWs content = false ∧
    emitted st' =
      emitted st ++
      [EmitAck "message:send"
         (VObj (list_to_map [("chatId", raw_id a); ("content", VStr content)]))
         tempId] ∧
    messages st' = messages st ++ [optimisticMsg] ∧
    get optimisticMsg "id" = VStr tempId ∧
    get optimisticMsg "content" = VStr content ∧
    get optimisticMsg "chat" = raw_id a ∧
    get optimisticMsg "sender" = get u "id" ∧
    input st' = "".
Proof.
  intros Hc Ha Hu Hws. cbv zeta. rewrite (send_connected sk a) by done.
  destruct (trim_split (input st)) as (pre & post & Hs & Hpre & Hpost & Hst & Hend).
  unfold sendOptimistic. rewrite Hu. simpl.
  eexists (trim (input st)), pre, post, _.
  split_and!; try done.
  intros Hempty. rewrite <- trim_empty, Hempty in Hws. done.
Qed.

Lemma send_emits_trimmed_content_witness :
  ∃ optimisticMsg,
    messages state_sent = [optimisticMsg] ∧
    get optimisticMsg "content" = VStr "hi".
Proof.
  destruct (send_emits_trimmed_content socket_up chat_c1 user_u1 1
              "2024-01-01T00:00:00.000Z" (setInput " hi " state0))
    as (content & pre & post & m & Hin & _ & _ & _ & Hst & Hend & _ & Hm & _ & Hcontent & _);
    [reflexivity..|].
  exists m. split; [exact Hm|].
  assert (content = trim " hi ") as ->; [|exact Hcontent].
  change (messages (send (Some socket_up) 1 "2024-01-01T00:00:00.000Z"
                      (setInput " hi " state0)) = [] ++ [m]) in Hm.
  vm_compute in Hm. injection Hm as <-. vm_compute in Hcontent.
  by injection Hcontent as <-.
Defined.

Lemma removeOptimistic_absent tempId prev :
  optimisticEntries tempId prev = [] → removeOptimistic tempId prev = prev.
Proof.
  unfold optimisticEntries, removeOptimistic.
  induction prev as [|m prev IH]; [done|].
  rewrite !filter_cons.
  destruct (strict_eq_str (get m "id") tempId) eqn:E.
  - by rewrite decide_True by done.
  - rewrite decide_False by congruence. rewrite decide_True by done.
    intros H. by rewrite IH.
Qed.

(** X3. A send that is refused undoes itself: when no entry of the
    thread carries the temporary id yet, [send] on a connected socket
    followed by an error acknowledgment for that send gives back the
    thread as it was before the send. *)
Theorem send_then_error_ack_restores_thread
    (sk : socket_view) (a u : obj) (now : Z) (iso : string)
    (ack : ack_payload) (st : state) :
  connected_after sk 0 = true →
  active st = Some a →
  user st = Some u →
  all_ws (input st) = false →
  optimisticEntries ("temp-" +:+ pretty now) (messages st) = [] →
  isErrorAck ack →
  messages (ackCallback ("temp-" +:+ pretty now) (Some ack)
              (send (Some sk) now iso st)) = messages st.
Proof.
  intros Hc Ha Hu Hws Hfresh [Hok Herr].
  rewrite (send_connected sk a) by done.
  unfold ackCallback. rewrite Hok, Herr. simpl.
  unfold sendOptimistic. rewrite Hu. simpl.
  unfold removeOptimistic. rewrite filter_app.
  fold (removeOptimistic ("temp-" +:+ pretty now) (messages st)).
  rewrite removeOptimistic_absent by done.
  rewrite filter_cons, decide_False, filter_nil, app_nil_r; [done|].
  unfold get. rewrite lookup_insert_eq. simpl.
  by rewrite bool_decide_eq_true_2.
Qed.

Lemma send_then_error_ack_restores_thread_witness :
  messages (ackCallback "temp-1" (Some ack_failed) state_sent) = [].
Proof.
  apply (send_then_error_ack_restores_thread socket_up chat_c1 user_u1 1
           "2024-01-01T00:00:00.000Z" ack_failed (setInput " hi " state0));
    try reflexivity.
  by split.
Defined.

(** ** Unread counters under [message:new] *)

Lemma handleNewMessage_user connected message st :
  user (handleNewMessage connected message st) = user st.
Proof.
  unfold handleNewMessage.
  repeat (case_match; simpl; try done).
Qed.

Lemma handleNewMessage_unreadCounts connected message st :
  unreadCounts (handleNewMessage connected message st) =
  if truthy (messageChatId message)
     && negb (isActiveChat (messageChatId message) (active st))
     && negb (bool_decide (String_ (get message "sender") =
                           String_ (get_opt (user st) "id")))
  then incrementUnread (String_ (messageChatId message)) (unreadCounts st)
  else unreadCounts st.
Proof.
  unfold handleNewMessage.
  destruct (truthy (messageChatId message)); simpl; [|done].
  destruct (isActiveChat _ _), connected,
    (negb (bool_decide (String_ (get message "sender") =
                        String_ (get_opt (user st) "id")))); simpl;
    destruct (upsertFromIncomingMessage _ _ _) as [next [|]]; done.
Qed.

Lemma incrementUnread_self id prev :
  unread_or0 (incrementUnread id prev) id = unread_or0 prev id + 1.
Proof.
  unfold incrementUnread. unfold unread_or0 at 1. rewrite lookup_insert_eq.
  destruct (unread_or0 prev id + 1 =? 0) eqn:E; [|done].
  apply Z.eqb_eq in E. lia.
Qed.

Lemma inboundToInactive_step st k connected m message :
  inboundToInactive st k message →
  inboundToInactive (handleNewMessage connected m st) k message.
Proof.
  intros (H1 & H2 & H3 & H4). split_and!; [done|done| |].
  - by rewrite handleNewMessage_active.
  - by rewrite handleNewMessage_user.
Qed.

Lemma deliverAll_inbound_unread st k evs :
  Forall (fun e => inboundToInactive st k e.2) evs →
  unread_or0 (unreadCounts (deliverAll st evs)) k =
    unread_or0 (unreadCounts st) k + Z.of_nat (length evs) ∧
  (∀ k', k' ≠ k →
         unreadCounts (deliverAll st evs) !! k' = unreadCounts st !! k') ∧
  messages (deliverAll st evs) = messages st.
Proof.
  revert st. induction evs as [|[c m] evs IH]; intros st Hall.
  - simpl. split_and!; [lia|done|done].
  - apply Forall_cons in Hall as [Hm Hall]. simpl in Hm.
    destruct Hm as (Ht & Hk & Hact & Hsender).
    change (deliverAll st ((c, m) :: evs))
      with (deliverAll (handleNewMessage c m st) evs).
    destruct (IH (handleNewMessage c m st)) as (IH1 & IH2 & IH3).
    { eapply Forall_impl; [exact Hall|]. intros e He.
      by apply inboundToInactive_step. }
    rewrite IH1, IH3.
    rewrite handleNewMessage_unreadCounts, handleNewMessage_messages.
    rewrite Ht, Hact, (bool_decide_eq_false_2 _ Hsender). simpl.
    rewrite Hk, incrementUnread_self. split_and!; [lia| |done].
    intros k' Hk'. rewrite IH2 by done. rewrite handleNewMessage_unreadCounts.
    rewrite Ht, Hact, (bool_decide_eq_false_2 _ Hsender). simpl.
    unfold incrementUnread. rewrite Hk. by rewrite lookup_insert_ne.
Qed.

(** X4. Messages from other users for a chat that is not the active one
    are counted: after any sequence of such [message:new] events for
    chat [k], the unread counter of [k] has grown by the number of
    events, no other counter has changed, and the thread on display is
    untouched. *)
Theorem inbound_messages_count_unread
    (st : state) (k : string) (evs : list (bool * obj)) :
  Forall (fun e => inboundToInactive st k e.2) evs →
  let st' := deliverAll st evs in
  unread_or0 (unreadCounts st') k =
    unread_or0 (unreadCounts st) k + Z.of_nat (length evs) ∧
  (∀ k', k' ≠ k → unreadCounts st' !! k' = unreadCounts st !! k') ∧
  messages st' = messages st.
Proof. intros Hall. by apply deliverAll_inbound_unread. Qed.

Lemma inbound_messages_count_unread_witness :
  unread_or0
    (unreadCounts (deliverAll state0 [(true, msg_m2); (false, msg_m2)])) "c2" = 2.
Proof.
  destruct (inbound_messages_count_unread state0 "c2"
              [(true, msg_m2); (false, msg_m2)]) as (H & _).
  - repeat constructor; vm_compute; discriminate.
  - exact H.
Defined.

(** X5. The unread counters change only for a message that names a chat
    other than the active one and comes from another user: a message of
    the user's own, or one for the active chat, leaves every counter as
    it is. *)
Theorem own_or_active_message_keeps_unread
    (connected : bool) (message : obj) (st : state) :
  isActiveChat (messageChatId message) (active st) = true ∨
  String_ (get message "sender") = String_ (get_opt (user st) "id") →
  unreadCounts (handleNewMessage connected message st) = unreadCounts st.
Proof.
  intros H. rewrite handleNewMessage_unreadCounts.
  destruct H as [-> | ->].
  - by rewrite andb_false_r.
  - rewrite bool_decide_eq_true_2 by done. by rewrite andb_false_r.
Qed.

Lemma own_or_active_message_keeps_unread_witness :
  unreadCounts (handleNewMessage true msg_m7 state0) = ∅.
Proof.
  apply (own_or_active_message_keeps_unread true msg_m7 state0).
  right. reflexivity.
Defined.

(** ** Acknowledgments and fetches started by [message:new] *)

Lemma handleNewMessage_emitted connected message st :
  emitted (handleNewMessage connected message st) =
  if truthy (messageChatId message)
     && isActiveChat (messageChatId message) (active st)
     && connected
     && negb (bool_decide (String_ (get message "sender") =
                           String_ (get_opt (user st) "id")))
  then emitted st ++
       [Emit "message:delivered" (VObj {[ "messageId" := raw_id message ]});
        Emit "message:seen" (VObj {[ "messageIds" := VArr [raw_id message] ]})]
  else emitted st.
Proof.
  unfold handleNewMessage.
  destruct (truthy (messageChatId message)); simpl; [|done].
  destruct (isActiveChat _ _), connected,
    (negb (bool_decide (String_ (get message "sender") =
                        String_ (get_opt (user st) "id")))); simpl;
    destruct (upsertFromIncomingMessage _ _ _) as [next [|]]; simpl;
    by rewrite <- ?app_assoc.
Qed.

(** X6. [message:new] acknowledges a message exactly when it is for the
    active chat, the socket is connected and the sender is not the user:
    then it emits [message:delivered] and after it [message:seen], both
    with the raw id of the message, and nothing else. A message of the
    user's own, one for another chat, or one that arrives while the
    socket is down, causes no emission at all. *)
Theorem message_new_acknowledges_only_foreign_active
    (connected : bool) (message : obj) (st : state) :
  let st' := handleNewMessage connected message st in
  (deliveredToActive st message → connected = true →
   String_ (get message "sender") ≠ String_ (get_opt (user st) "id") →
   emitted st' =
     emitted st ++
     [Emit "message:delivered" (VObj {[ "messageId" := raw_id message ]});
      Emit "message:seen" (VObj {[ "messageIds" := VArr [raw_id message] ]})]) ∧
  (connected = false ∨
   isActiveChat (messageChatId message) (active st) = false ∨
   String_ (get message "sender") = String_ (get_opt (user st) "id") →
   emitted st' = emitted st).
Proof.
  cbv zeta. rewrite handleNewMessage_emitted. split.
  - intros [-> ->] -> Hs. simpl. by rewrite bool_decide_eq_false_2.
  - intros [-> | [-> | ->]].
    + by rewrite andb_false_r.
    + by rewrite andb_false_r.
    + rewrite bool_decide_eq_true_2 by done. by rewrite andb_false_r.
Qed.

Lemma message_new_acknowledges_only_foreign_active_witness :
  emitted (handleNewMessage true msg_m1 state0) =
    [Emit "message:delivered" (VObj {[ "messageId" := VStr "m1" ]});
     Emit "message:seen" (VObj {[ "messageIds" := VArr [VStr "m1"] ]})] ∧
  emitted (handleNewMessage true msg_m7 state0) = [].
Proof.
  destruct (message_new_acknowledges_only_foreign_active true msg_m1 state0)
    as (H1 & _).
  destruct (message_new_acknowledges_only_foreign_active true msg_m7 state0)
    as (_ & H2).
  split.
  - apply H1; [by split|done|]. vm_compute. discriminate.
  - apply H2. right. right. reflexivity.
Defined.

Lemma handleNewMessage_fetches connected message st :
  fetches (handleNewMessage connected message st) =
  if truthy (messageChatId message)
     && (upsertFromIncomingMessage message (messageChatId message) (chats st)).2
  then fetches st ++ [messageChatId message]
  else fetches st.
Proof.
  unfold handleNewMessage.
  destruct (truthy (messageChatId message)); simpl; [|done].
  destruct (isActiveChat _ _), connected,
    (negb (bool_decide (String_ (get message "sender") =
                        String_ (get_opt (user st) "id")))); simpl;
    destruct (upsertFromIncomingMessage _ _ _) as [next [|]]; done.
Qed.

(** X7. What [message:new] does to the chat list, for a payload that
    names a chat [k]. If a chat with id [k] is cached, the list keeps its
    length and order, the chats with id [k] get the message as their
    [lastMessage] and keep every other member, all other chats are
    unchanged, and no fetch is started. If none is cached and the event
    embeds chat info, the list is unchanged or grows by one chat at the
    front, and no fetch is started. If none is cached and the event
    embeds no chat info, the list is unchanged and exactly one fetch of
    that chat is started. *)
Theorem message_new_chat_list_cases
    (connected : bool) (message : obj) (st : state) :
  truthy (messageChatId message) = true →
  let k := String_ (messageChatId message) in
  let st' := handleNewMessage connected message st in
  (has_id k (chats st) = true →
   length (chats st') = length (chats st) ∧
   fetches st' = fetches st ∧
   ∀ i c, chats st !! i = Some c →
     ∃ c', chats st' !! i = Some c' ∧
           (canonical_id c ≠ k → c' = c) ∧
           (canonical_id c = k →
            c' !! "lastMessage" = Some (VObj message) ∧
            ∀ key, key ≠ "lastMessage" → c' !! key = c !! key)) ∧
  (has_id k (chats st) = false → truthy (get message "chatInfo") = true →
   fetches st' = fetches st ∧
   (chats st' = chats st ∨
    ∃ chat, chats st' = chat :: chats st ∧
            (canonical_id chat ∉ canonical_id <$> chats st) ∧
            chat !! "lastMessage" = Some (VObj message) ∧
            ∀ key, key ≠ "lastMessage" →
                   chat !! key = spread (get message "chatInfo") !! key)) ∧
  (has_id k (chats st) = false → truthy (get message "chatInfo") = false →
   chats st' = chats st ∧
   fetches st' = fetches st ++ [messageChatId message]).
Proof.
  intros Ht. cbv zeta.
  rewrite handleNewMessage_chats, handleNewMessage_fetches, Ht by done.
  unfold upsertFromIncomingMessage. simpl. split_and!.
  - intros ->. simpl. rewrite length_map. split_and!; [done|done|].
    intros i c Hi. rewrite list_lookup_fmap, Hi. simpl. eexists. split; [done|].
    case_bool_decide; split; try done.
    intros _. split; [by rewrite lookup_insert_eq|].
    intros key Hkey. by rewrite lookup_insert_ne.
  - intros -> ->.
    match goal with
    | |- context [has_id (canonical_id ?x) _] =>
        destruct (has_id (canonical_id x) (chats st)) eqn:E
    end; simpl.
    + split; [done|by left].
    + split; [done|]. right. eexists. split; [done|]. split_and!.
      * by apply has_id_false_fmap.
      * by rewrite lookup_insert_eq.
      * intros key Hkey. by rewrite lookup_insert_ne.
  - by intros -> ->.
Qed.

Lemma message_new_chat_list_cases_witness :
  chats (handleNewMessage true msg_m5 state0) = chats state0 ∧
  fetches (handleNewMessage true msg_m5 state0) = [VStr "c5"].
Proof.
  destruct (message_new_chat_list_cases true msg_m5 state0 eq_refl)
    as (_ & _ & H).
  apply H; reflexivity.
Defined.

(** ** [message:status] applied twice or out of order *)

Lemma get_insert_eq k v (o : obj) : get (<[k := v]> o) k = v.
Proof. unfold get. by rewrite lookup_insert_eq. Qed.

Lemma get_insert_ne k k' v (o : obj) : k ≠ k' → get (<[k := v]> o) k' = get o k'.
Proof. intros. unfold get. by rewrite lookup_insert_ne. Qed.

Lemma patchStatus_again ev old :
  patchStatus (VObj (patchStatus old ev)) ev = patchStatus old ev.
Proof. unfold patchStatus. simpl. by rewrite insert_insert_eq. Qed.

Lemma patchStatus_swap ev1 ev2 old :
  String_ (userId ev1) ≠ String_ (userId ev2) →
  patchStatus (VObj (patchStatus old ev2)) ev1 =
  patchStatus (VObj (patchStatus old ev1)) ev2.
Proof. intros Hne. unfold patchStatus. simpl. by apply insert_insert_ne. Qed.

Lemma statusUpdateMessages_idem ev prev :
  statusUpdateMessages ev (statusUpdateMessages ev prev) =
  statusUpdateMessages ev prev.
Proof.
  unfold statusUpdateMessages. rewrite map_map. apply map_ext. intros m.
  destruct (bool_decide (canonical_id m = String_ (messageId ev))) eqn:E;
    simpl; rewrite ?canonical_id_insert, ?E by done; simpl; [|done].
  by rewrite get_insert_eq, patchStatus_again, insert_insert_eq.
Qed.

Lemma statusUpdateMessages_swap ev1 ev2 prev :
  String_ (userId ev1) ≠ String_ (userId ev2) ∨
  String_ (messageId ev1) ≠ String_ (messageId ev2) →
  statusUpdateMessages ev1 (statusUpdateMessages ev2 prev) =
  statusUpdateMessages ev2 (statusUpdateMessages ev1 prev).
Proof.
  intros Hdiff. unfold statusUpdateMessages. rewrite !map_map.
  apply map_ext. intros m.
  destruct (bool_decide (canonical_id m = String_ (messageId ev1))) eqn:E1,
           (bool_decide (canonical_id m = String_ (messageId ev2))) eqn:E2;
    simpl; rewrite ?canonical_id_insert, ?E1, ?E2 by done; simpl; try done.
  apply bool_decide_eq_true in E1, E2.
  destruct Hdiff as [Hu|Hm]; [|congruence].
  by rewrite !get_insert_eq, !insert_insert_eq, (patchStatus_swap ev1 ev2).
Qed.

Lemma statusUpdateChats_idem ev prev :
  Forall lastMessageIsObject prev →
  statusUpdateChats ev (statusUpdateChats ev prev) = statusUpdateChats ev prev.
Proof.
  intros Hall. unfold statusUpdateChats. rewrite map_map.
  apply map_ext_in. intros c Hc.
  rewrite Forall_forall in Hall. specialize (Hall c).
  unfold lastMessageIsObject in Hall.
  destruct (get c "lastMessage") as [| | | | | |o] eqn:Elm;
    try (rewrite (Hall ltac:(by apply list_elem_of_In)); simpl;
         by rewrite Elm, (Hall ltac:(by apply list_elem_of_In))).
  simpl. change (String_ (js_or (get o "id") (get o "_id"))) with (canonical_id o).
  destruct (bool_decide (canonical_id o = String_ (messageId ev))) eqn:E; simpl.
  - rewrite get_insert_eq. simpl.
    change (String_ (js_or (get ?x "id") (get ?x "_id"))) with (canonical_id x).
    rewrite canonical_id_insert, E by done. simpl.
    by rewrite get_insert_eq, patchStatus_again, !insert_insert_eq.
  - rewrite Elm. simpl.
    change (String_ (js_or (get o "id") (get o "_id"))) with (canonical_id o).
    by rewrite E.
Qed.

Lemma statusUpdateChats_swap ev1 ev2 prev :
  Forall lastMessageIsObject prev →
  String_ (userId ev1) ≠ String_ (userId ev2) ∨
  String_ (messageId ev1) ≠ String_ (messageId ev2) →
  statusUpdateChats ev1 (statusUpdateChats ev2 prev) =
  statusUpdateChats ev2 (statusUpdateChats ev1 prev).
Proof.
  intros Hall Hdiff. unfold statusUpdateChats. rewrite !map_map.
  apply map_ext_in. intros c Hc.
  rewrite Forall_forall in Hall. specialize (Hall c).
  unfold lastMessageIsObject in Hall.
  destruct (get c "lastMessage") as [| | | | | |o] eqn:Elm;
    try (rewrite (Hall ltac:(by apply list_elem_of_In)); simpl;
         by rewrite Elm, (Hall ltac:(by apply list_elem_of_In))).
  simpl. change (String_ (js_or (get o "id") (get o "_id"))) with (canonical_id o).
  destruct (bool_decide (canonical_id o = String_ (messageId ev1))) eqn:E1,
           (bool_decide (canonical_id o = String_ (messageId ev2))) eqn:E2;
    simpl; rewrite ?get_insert_eq, ?Elm; simpl;
    change (String_ (js_or (get ?x "id") (get ?x "_id"))) with (canonical_id x);
    rewrite ?canonical_id_insert, ?E1, ?E2 by done; simpl; try done.
  apply bool_decide_eq_true in E1, E2.
  destruct Hdiff as [Hu|Hm]; [|congruence].
  by rewrite !get_insert_eq, !insert_insert_eq, (patchStatus_swap ev1 ev2).
Qed.

(** X8. Receipts tolerate duplicates: when every cached last message is
    an object (or there is none), applying the same [message:status]
    event a second time changes nothing. *)
Theorem message_status_idempotent (ev : status_event) (st : state) :
  Forall lastMessageIsObject (chats st) →
  messageStatus ev (messageStatus ev st) = messageStatus ev st.
Proof.
  intros Hall. unfold messageStatus, setChats, setMessages. simpl.
  by rewrite statusUpdateMessages_idem, statusUpdateChats_idem.
Qed.

Lemma message_status_idempotent_witness :
  messageStatus status_m1_seen (messageStatus status_m1_seen state2) =
  messageStatus status_m1_seen state2.
Proof.
  apply (message_status_idempotent status_m1_seen state2).
  repeat constructor.
Defined.

(** X9. Receipts tolerate reordering: two [message:status] events that
    concern different users, or different messages, give the same state
    in either order (every cached last message being an object or
    absent). *)
Theorem message_status_commutes (ev1 ev2 : status_event) (st : state) :
  Forall lastMessageIsObject (chats st) →
  String_ (userId ev1) ≠ String_ (userId ev2) ∨
  String_ (messageId ev1) ≠ String_ (messageId ev2) →
  messageStatus ev1 (messageStatus ev2 st) =
  messageStatus ev2 (messageStatus ev1 st).
Proof.
  intros Hall Hdiff. unfold messageStatus, setChats, setMessages. simpl.
  by rewrite (statusUpdateMessages_swap ev1 ev2), (statusUpdateChats_swap ev1 ev2).
Qed.

Lemma message_status_commutes_witness :
  messageStatus status_m1_seen (messageStatus status_m1_delivered state2) =
  messageStatus status_m1_delivered (messageStatus status_m1_seen state2).
Proof.
  apply (message_status_commutes status_m1_seen status_m1_delivered state2).
  - repeat constructor.
  - left. vm_compute. discriminate.
Defined.

(** ** [typing] *)

Lemma raw_id_insert key v (o : obj) :
  key ≠ "id" → key ≠ "_id" → raw_id (<[key := v]> o) = raw_id o.
Proof.
  intros H1 H2. unfold raw_id, get. by rewrite !lookup_insert_ne.
Qed.

(** X10. A [typing] event touches nothing but the [typing] member of
    the chats whose raw id is strictly equal to the event's chat id: the
    chat list keeps its length, its order and its canonical ids, every
    other chat and every other member is unchanged, the rest of the
    state is unchanged, and applying the event again changes nothing. *)
Theorem typing_event_frame (data : typing_event) (st : state) :
  let st' := handleTypingEvent data st in
  length (chats st') = length (chats st) ∧
  canonical_id <$> chats st' = canonical_id <$> chats st ∧
  (∀ i c, chats st !! i = Some c →
     ∃ c', chats st' !! i = Some c' ∧
           (strict_eq (raw_id c) (typing_chatId data) = false → c' = c) ∧
           (strict_eq (raw_id c) (typing_chatId data) = true →
            c' !! "typing" = Some (typing_flag data) ∧
            ∀ key, key ≠ "typing" → c' !! key = c !! key)) ∧
  handleTypingEvent data st' = st' ∧
  (messages st', active st', unreadCounts st', emitted st', fetches st') =
  (messages st, active st, unreadCounts st, emitted st, fetches st).
Proof.
  cbv zeta. unfold handleTypingEvent. simpl. split_and!.
  - unfold typingUpdateChats. by rewrite length_map.
  - unfold typingUpdateChats. apply fmap_canonical_id_map.
    intros c. case_match; [|done]. by apply canonical_id_insert.
  - intros i c Hi. unfold typingUpdateChats.
    rewrite list_lookup_fmap, Hi. simpl. eexists. split; [done|].
    destruct (strict_eq (raw_id c) (typing_chatId data)); split; try done.
    intros _. split; [by rewrite lookup_insert_eq|].
    intros key Hkey. by rewrite lookup_insert_ne.
  - unfold setChats. simpl. f_equal.
    unfold typingUpdateChats. rewrite map_map. apply map_ext. intros c.
    destruct (strict_eq (raw_id c) (typing_chatId data)) eqn:E.
    + rewrite raw_id_insert, E by done. by rewrite insert_insert_eq.
    + by rewrite E.
  - done.
Qed.

(** ** [user:presence] *)

Lemma someThrowing_defined data members :
  Forall (fun m => is_nullish m = false) members →
  is_Some (someThrowing (isPresenceMember data) members).
Proof.
  induction 1 as [|m members Hm _ IH]; simpl; [by eexists|].
  unfold isPresenceMember. rewrite Hm. by case_match.
Qed.

Lemma someThrowing_false data members :
  someThrowing (isPresenceMember data) members = Some false →
  Forall (fun m => is_nullish m = false) members ∧
  Forall (fun m => strict_eq (js_or (get_prop m "id") (get_prop m "_id"))
                             (presence_userId data) = false) members.
Proof.
  induction members as [|m members IH]; simpl; [by split|].
  unfold isPresenceMember.
  destruct (is_nullish m) eqn:Hn; [done|].
  destruct (strict_eq (get_prop m "id") _ || strict_eq (get_prop m "_id") _) eqn:E;
    [done|].
  intros [H1 H2]%IH. apply orb_false_iff in E as [E1 E2].
  split; constructor; try done.
  unfold js_or. by case_match.
Qed.

Lemma patchPresenceMember_patched data m m' :
  patchPresenceMember data m = Some m' → memberPatched data m m'.
Proof.
  unfold patchPresenceMember, memberPatched.
  destruct (is_nullish m); [done|].
  destruct (strict_eq _ _); intros [= <-]; [|done].
  eexists. split; [done|]. split_and!.
  - by rewrite lookup_insert_ne, lookup_insert_eq.
  - by rewrite lookup_insert_eq.
  - intros key H1 H2. by rewrite !lookup_insert_ne.
Qed.

Lemma patchPresenceMember_defined data members :
  Forall (fun m => is_nullish m = false) members ↔
  is_Some (mapM (patchPresenceMember data) members).
Proof.
  rewrite mapM_is_Some. apply Forall_iff. intros m. simpl.
  unfold patchPresenceMember. destruct (is_nullish m).
  - split; [done|]. by intros [? ?].
  - split; [|done]. intros _. case_match; by eexists.
Qed.

Lemma presencePatchChat_defined data c :
  is_Some (presencePatchChat data c) ↔ membersWellFormed c.
Proof.
  unfold presencePatchChat, membersWellFormed.
  destruct (get c "members") as [| | b | n | s |members| o].
  - split; [done|]. intros _. by exists c.
  - split; [done|]. intros _. by exists c.
  - split; [by intros [? ?]|done].
  - split; [by intros [? ?]|done].
  - split; [by intros [? ?]|done].
  - split.
    + intros [c' Hc'].
      destruct (someThrowing _ members) as [[|]|] eqn:Hsome; [| |done].
      * apply (patchPresenceMember_defined data).
        destruct (mapM _ members) as [ms|]; [by exists ms|done].
      * by apply someThrowing_false in Hsome as [? _].
    + intros Hwf.
      destruct (someThrowing_defined data members Hwf) as [[|] ->].
      * apply (patchPresenceMember_defined data) in Hwf as [ms ->].
        by eexists.
      * by exists c.
  - split; [by intros [? ?]|done].
Qed.

Lemma presencePatchChat_spec data c c' :
  presencePatchChat data c = Some c' →
  (∀ key, key ≠ "members" → c' !! key = c !! key) ∧
  match get c "members" with
  | VArr members =>
      ∃ members', get c' "members" = VArr members' ∧
                  Forall2 (memberPatched data) members members'
  | _ => c' = c
  end.
Proof.
  unfold presencePatchChat.
  destruct (get c "members") as [| | | | |members|] eqn:Em; try done;
    try (by intros [= <-]).
  destruct (someThrowing _ members) as [[|]|] eqn:Hsome; [| |done].
  - destruct (mapM _ members) as [ms|] eqn:Hmap; [|done].
    intros [= <-]. split.
    + intros key Hkey. by rewrite lookup_insert_ne.
    + exists ms. split; [by rewrite get_insert_eq|].
      apply mapM_Some in Hmap. eapply Forall2_impl; [exact Hmap|].
      intros m m'. apply patchPresenceMember_patched.
  - intros [= <-]. split; [done|]. exists members. split; [done|].
    apply someThrowing_false in Hsome as [_ Hno].
    clear Em. induction Hno as [|m ms Hm _ IH]; [constructor|].
    constructor; [|done]. unfold memberPatched. by rewrite Hm.
Qed.

(** X11. [user:presence] goes through exactly when every cached chat has
    no [members] or an array of members without [null] entries
    (otherwise the updater throws). When it goes through, the chat list
    keeps its length and order, each chat keeps every member but
    [members], and inside [members] only the entries named by the event
    change, and only in [isOnline] and [lastSeen]; nothing else of the
    state changes. *)
Theorem user_presence_frame (data : presence_event) (st : state) :
  (is_Some (userPresence data st) ↔ Forall membersWellFormed (chats st)) ∧
  ∀ st', userPresence data st = Some st' →
    length (chats st') = length (chats st) ∧
    (∀ i c, chats st !! i = Some c →
       ∃ c', chats st' !! i = Some c' ∧
             (∀ key, key ≠ "members" → c' !! key = c !! key) ∧
             match get c "members" with
             | VArr members =>
                 ∃ members', get c' "members" = VArr members' ∧
                             Forall2 (memberPatched data) members members'
             | _ => c' = c
             end) ∧
    (messages st', active st', unreadCounts st', emitted st', alerts st') =
    (messages st, active st, unreadCounts st, emitted st, alerts st).
Proof.
  unfold userPresence. split.
  - transitivity (is_Some (mapM (presencePatchChat data) (chats st))).
    + destruct (mapM (presencePatchChat data) (chats st)); split;
        try done; by intros [? ?].
    + rewrite mapM_is_Some. apply Forall_iff. intros c.
      apply presencePatchChat_defined.
  - intros st'. destruct (mapM _ (chats st)) as [next|] eqn:Hmap; [|done].
    intros [= <-]. simpl. apply mapM_Some in Hmap. split_and!; [|  |done].
    + symmetry. by eapply Forall2_length.
    + intros i c Hi.
      destruct (Forall2_lookup_l _ _ _ _ _ Hmap Hi) as (c' & Hi' & Hc').
      exists c'. split; [done|]. by apply presencePatchChat_spec.
Qed.

Lemma typing_event_frame_witness :
  ∃ c', chats (handleTypingEvent typing_c1 state3) !! 0%nat = Some c' ∧
        c' !! "typing" = Some (VBool true).
Proof.
  destruct (typing_event_frame typing_c1 state3) as (_ & _ & H & _).
  destruct (H 0%nat chat_direct eq_refl) as (c' & Hc' & _ & Hm).
  exists c'. split; [exact Hc'|]. by apply Hm.
Defined.

Lemma user_presence_frame_witness :
  is_Some (userPresence presence_u2 state3).
Proof.
  apply (user_presence_frame presence_u2 state3).
  repeat constructor.
Defined.

(** ** The sidebar list *)

Lemma findIndexFrom_first {A} (p : A → bool) pre c r i :
  Forall (fun x => p x = false) pre → p c = true →
  findIndexFrom p (pre ++ c :: r) i = i + Z.of_nat (length pre).
Proof.
  intros Hpre Hc. revert i. induction Hpre as [|x pre Hx _ IH]; intros i; simpl.
  - rewrite Hc. lia.
  - rewrite Hx, IH. lia.
Qed.

Lemma findIndexFrom_earlier {A} (p : A → bool) pre rest i :
  Exists (fun x => p x = true) pre →
  i ≤ findIndexFrom p (pre ++ rest) i < i + Z.of_nat (length pre).
Proof.
  intros Hex. revert i. induction pre as [|x pre IH]; intros i.
  - by apply Exists_nil in Hex.
  - simpl. destruct (p x) eqn:Hx; [lia|].
    apply Exists_cons in Hex as [Hex|Hex]; [congruence|].
    specialize (IH Hex (i + 1)). lia.
Qed.

Lemma listedChats_from (pre l : list obj) (seen : gset string) :
  (∀ k, k ∈ seen ↔ k ∈ canonical_id <$> pre) →
  filterIndexFrom
    (fun c index =>
       index =? findIndex (fun chat => bool_decide (canonical_id chat = canonical_id c))
                          (pre ++ l))
    l (Z.of_nat (length pre)) =
  firstOccurrences seen l.
Proof.
  revert pre seen. induction l as [|c r IH]; intros pre seen Hseen; [done|].
  simpl. unfold findIndex at 1.
  destruct (decide (canonical_id c ∈ seen)) as [Hin|Hin].
  - assert (Exists (fun x => bool_decide (canonical_id x = canonical_id c) = true) pre)
      as Hex.
    { apply Hseen, list_elem_of_fmap in Hin as (x & Hx & Hxin).
      apply Exists_exists. exists x. split; [done|]. by apply bool_decide_eq_true. }
    pose proof (findIndexFrom_earlier _ pre (c :: r) 0 Hex) as Hlt.
    rewrite (proj2 (Z.eqb_neq _ _)) by lia.
    replace (Z.of_nat (length pre) + 1) with (Z.of_nat (length (pre ++ [c])))
      by (rewrite length_app; simpl; lia).
    replace (pre ++ c :: r) with ((pre ++ [c]) ++ r) by by rewrite <- app_assoc.
    apply IH. intros k. rewrite Hseen, fmap_app, elem_of_app. simpl.
    rewrite list_elem_of_singleton. split; [by left|].
    intros [?| ->]; [done|]. by apply Hseen.
  - rewrite findIndexFrom_first; [|..].
    + rewrite Z.add_0_l, Z.eqb_refl. f_equal.
      replace (Z.of_nat (length pre) + 1) with (Z.of_nat (length (pre ++ [c])))
        by (rewrite length_app; simpl; lia).
      replace (pre ++ c :: r) with ((pre ++ [c]) ++ r) by by rewrite <- app_assoc.
      apply IH. intros k. rewrite elem_of_union, elem_of_singleton, Hseen.
      rewrite fmap_app, elem_of_app. simpl. rewrite list_elem_of_singleton.
      tauto.
    + apply Forall_forall. intros x Hx. apply bool_decide_eq_false.
      intros Heq. apply Hin, Hseen, list_elem_of_fmap. by exists x.
    + by apply bool_decide_eq_true.
Qed.

Lemma firstOccurrences_unique seen l :
  NoDup (canonical_id <$> l) →
  (∀ k, k ∈ seen → k ∉ canonical_id <$> l) →
  firstOccurrences seen l = l.
Proof.
  revert seen. induction l as [|c r IH]; intros seen Hnd Hdisj; [done|].
  simpl. rewrite fmap_cons in Hnd. apply NoDup_cons in Hnd as [Hc Hnd].
  rewrite decide_False.
  - f_equal. apply IH; [done|]. intros k [Hk%elem_of_singleton|Hk]%elem_of_union.
    + by subst k.
    + intros Hin. apply (Hdisj k Hk). rewrite fmap_cons. by right.
  - intros Hin. apply (Hdisj _ Hin). rewrite fmap_cons. by left.
Qed.

(** X12. The filter the sidebar applies when it renders the chat list
    keeps, for each canonical id, the first chat with that id: it gives
    the same list as the deduplication of [loadChats]. The listed chats
    have pairwise distinct ids, and when the cached list already has
    distinct ids every cached chat is listed, in order. *)
Theorem listedChats_first_occurrences (safeChats : list obj) :
  listedChats safeChats = uniqueChats safeChats ∧
  NoDup (canonical_id <$> listedChats safeChats) ∧
  (NoDup (canonical_id <$> safeChats) → listedChats safeChats = safeChats).
Proof.
  assert (H : listedChats safeChats = firstOccurrences ∅ safeChats).
  { unfold listedChats. apply (listedChats_from [] safeChats ∅).
    intros k. simpl. split; [by intros ?%not_elem_of_empty|by intros ?%elem_of_nil]. }
  rewrite H. split_and!.
  - by rewrite uniqueChats_firstOccurrences.
  - apply firstOccurrences_NoDup.
  - intros Hnd. apply firstOccurrences_unique; [done|].
    by intros k ?%not_elem_of_empty.
Qed.

Lemma listedChats_first_occurrences_witness :
  listedChats [chat_c1; chat_c2] = [chat_c1; chat_c2].
Proof.
  apply (listedChats_first_occurrences [chat_c1; chat_c2]).
  change (NoDup ["c1"; "c2"]).
  apply NoDup_cons. split; [|apply NoDup_singleton].
  by intros ?%list_elem_of_singleton.
Defined.

(** ** Chats created from this client *)

Lemma adoptCreatedChat_chats has_socket chat st :
  chats (adoptCreatedChat has_socket chat st) = insertCreatedChat chat (chats st).
Proof. unfold adoptCreatedChat. by destruct has_socket. Qed.

Lemma chatCreated_count chat st :
  count_id (canonical_id chat) (chats (chatCreated (Some chat) st)) =
  Nat.max 1 (count_id (canonical_id chat) (chats st)).
Proof. simpl. apply upsertFromChatCreatedEvent_count. Qed.

(** X13. When the server answers [createOneToOne] with a chat, that chat
    becomes the active one and the search box is cleared. A cached chat
    with the same id is kept as it is (not replaced) and nothing is
    inserted; otherwise the chat is put in front. The ids of the list
    stay pairwise distinct, and if the [chat:created] event for the same
    chat id also arrives, before or after, the list still holds exactly
    as many entries with that id as [max 1 n], [n] being the number it
    held at first. A rejected request changes nothing. *)
Theorem created_chat_is_adopted_once
    (has_socket : bool) (chat pushed : obj) (st : state) (f : form) :
  canonical_id pushed = canonical_id chat →
  let k := canonical_id chat in
  let after := createOneToOne has_socket (Some chat) (st, f) in
  active after.1 = Some chat ∧
  query after.2 = "" ∧ searchResults after.2 = [] ∧
  (has_id k (chats st) = true → chats after.1 = chats st) ∧
  (has_id k (chats st) = false → chats after.1 = chat :: chats st) ∧
  (NoDup (canonical_id <$> chats st) → NoDup (canonical_id <$> chats after.1)) ∧
  count_id k (chats (chatCreated (Some pushed) after.1)) =
    Nat.max 1 (count_id k (chats st)) ∧
  count_id k (chats (createOneToOne has_socket (Some chat)
                       (chatCreated (Some pushed) st, f)).1) =
    Nat.max 1 (count_id k (chats st)) ∧
  createOneToOne has_socket None (st, f) = (st, f).
Proof.
  intros Hid. cbv zeta.
  change (createOneToOne has_socket (Some chat) (st, f)).1
    with (adoptCreatedChat has_socket chat st).
  change (createOneToOne has_socket (Some chat) (chatCreated (Some pushed) st, f)).1
    with (adoptCreatedChat has_socket chat (chatCreated (Some pushed) st)).
  rewrite !adoptCreatedChat_chats. unfold insertCreatedChat. split_and!.
  - unfold adoptCreatedChat. by destruct has_socket.
  - done.
  - done.
  - by intros ->.
  - by intros ->.
  - apply insert_if_absent_unique.
  - rewrite <- Hid at 1. rewrite chatCreated_count, Hid.
    rewrite adoptCreatedChat_chats. unfold insertCreatedChat.
    rewrite insert_if_absent_count by done. lia.
  - rewrite insert_if_absent_count by done.
    rewrite <- Hid, chatCreated_count. lia.
  - done.
Qed.

Lemma created_chat_is_adopted_once_witness :
  count_id "c2"
    (chats (chatCreated (Some chat_c2_server)
              (createOneToOne true (Some chat_c2) (state0, form_empty)).1)) = 1%nat.
Proof.
  destruct (created_chat_is_adopted_once true chat_c2 chat_c2_server state0
              form_empty eq_refl) as (_ & _ & _ & _ & _ & _ & H & _).
  exact H.
Defined.

(** X14. [createGroup] asks the server for a group only when the group
    name is not all white space and at least one member is selected;
    otherwise it leaves the state and the form as they are, whatever the
    server would have answered. The name it sends is the trimmed one and
    the members are the selected ones; after a successful answer the
    group form is reset. *)
Theorem createGroup_needs_name_and_members
    (has_socket : bool) (resp : option obj) (st : state) (f : form) :
  (all_ws (groupName f) = true ∨ selectedMembers f = [] ↔ groupRequest f = None) ∧
  (groupRequest f = None → createGroup has_socket resp (st, f) = (st, f)) ∧
  (∀ body, groupRequest f = Some body →
     get_prop body "name" = VStr (trim (groupName f)) ∧
     trim (groupName f) ≠ "" ∧
     get_prop body "memberIds" = VArr (selectedMembers f) ∧
     selectedMembers f ≠ [] ∧
     ∀ chat, resp = Some chat →
       (createGroup has_socket resp (st, f)).2 = mkForm "" [] false "" [] ∧
       active (createGroup has_socket resp (st, f)).1 = Some chat) .
Proof.
  split_and!.
  - unfold groupRequest. rewrite trim_empty.
    destruct (all_ws (groupName f)); simpl.
    + split; [done|by left].
    + destruct (selectedMembers f); simpl; split; try done.
      * by right.
      * by intros [?|?].
  - intros Hnone. unfold createGroup. simpl. by rewrite Hnone.
  - intros body Hbody. unfold createGroup. simpl. rewrite Hbody.
    unfold groupRequest in Hbody. rewrite trim_empty in Hbody.
    destruct (all_ws (groupName f)) eqn:Hws; [done|].
    destruct (selectedMembers f) as [|u us] eqn:Hsel; [done|].
    simpl in Hbody. injection Hbody as <-. split_and!; try done.
    + intros Hempty. rewrite <- trim_empty, Hempty in Hws. done.
    + intros chat ->. simpl. split; [done|].
      unfold adoptCreatedChat. by destruct has_socket.
Qed.

Lemma createGroup_needs_name_and_members_witness :
  createGroup true (Some chat_c2) (state0, form_empty) = (state0, form_empty) ∧
  ∃ body, groupRequest form_group = Some body ∧
          get_prop body "name" = VStr "team".
Proof.
  destruct (createGroup_needs_name_and_members true (Some chat_c2) state0 form_empty)
    as (_ & H1 & _).
  destruct (createGroup_needs_name_and_members true None state0 form_group)
    as (_ & _ & H2).
  split; [by apply H1|].
  eexists. split; [reflexivity|]. by apply H2.
Defined.

(** ** Selecting group members *)

Lemma strict_eq_sym a b : strict_eq a b = strict_eq b a.
Proof.
  destruct a, b; simpl; try done; apply bool_decide_ext; split; congruence.
Qed.

Lemma strict_eq_refl v : is_primitive v = true → strict_eq v v = true.
Proof. destruct v; simpl; try done; intros _; by apply bool_decide_eq_true. Qed.

Lemma strict_eq_trans_ne a b c :
  strict_eq a b = true → strict_eq c b = false → strict_eq c a = false.
Proof.
  destruct a, b; simpl; try done; intros ->%bool_decide_eq_true; done.
Qed.

Lemma existsb_filter_ne userId v prev :
  strict_eq v userId = false →
  existsb (strict_eq v) (filter (fun id => strict_eq id userId = false) prev) =
  existsb (strict_eq v) prev.
Proof.
  intros Hv. induction prev as [|x prev IH]; [done|].
  rewrite filter_cons. destruct (strict_eq x userId) eqn:Hx.
  - rewrite decide_False by done. cbn [existsb]. rewrite IH.
    by rewrite (strict_eq_sym v x), (strict_eq_sym x v),
      (strict_eq_trans_ne x userId v).
  - rewrite decide_True by done. cbn [existsb]. by rewrite IH.
Qed.

Lemma existsb_filter_eq userId prev :
  existsb (strict_eq userId)
    (filter (fun id => strict_eq id userId = false) prev) = false.
Proof.
  induction prev as [|x prev IH]; [done|].
  rewrite filter_cons. destruct (strict_eq x userId) eqn:Hx.
  - by rewrite decide_False by done.
  - rewrite decide_True by done. cbn [existsb].
    by rewrite IH, strict_eq_sym, Hx.
Qed.

Lemma filter_absent userId prev :
  existsb (strict_eq userId) prev = false →
  filter (fun id => strict_eq id userId = false) prev = prev.
Proof.
  induction prev as [|x prev IH]; [done|]. cbn [existsb].
  intros [Hx Hprev]%orb_false_iff.
  rewrite filter_cons, decide_True by by rewrite strict_eq_sym.
  by rewrite IH.
Qed.

(** X15. [toggleSelectMember] flips the selection of a user id that is
    a primitive value and of no other: afterwards the id is selected
    exactly when it was not before, every other id is selected exactly
    when it was before, and toggling an id that was not selected twice
    gives back the list as it was. *)
Theorem toggleSelectMember_flips (userId : value) (prev : list value) :
  is_primitive userId = true →
  existsb (strict_eq userId) (toggleSelectMember userId prev) =
    negb (existsb (strict_eq userId) prev) ∧
  (∀ v, strict_eq v userId = false →
        existsb (strict_eq v) (toggleSelectMember userId prev) =
        existsb (strict_eq v) prev) ∧
  (existsb (strict_eq userId) prev = false →
   toggleSelectMember userId (toggleSelectMember userId prev) = prev).
Proof.
  intros Hprim. unfold toggleSelectMember at 1 2.
  destruct (existsb (strict_eq userId) prev) eqn:Hin; simpl.
  - split_and!; [apply existsb_filter_eq| |done].
    intros v Hv. by apply existsb_filter_ne.
  - split_and!.
    + rewrite existsb_app, Hin. simpl. by rewrite strict_eq_refl.
    + intros v Hv. rewrite existsb_app. simpl. by rewrite Hv, !orb_false_r.
    + intros _. unfold toggleSelectMember. rewrite Hin.
      rewrite existsb_app, Hin. simpl. rewrite strict_eq_refl by done. simpl.
      rewrite filter_app, filter_absent by done.
      rewrite filter_cons, decide_False, filter_nil, app_nil_r; [done|].
      by rewrite strict_eq_refl.
Qed.

Lemma toggleSelectMember_flips_witness :
  toggleSelectMember (VStr "u2") (toggleSelectMember (VStr "u2") [VStr "u3"]) =
  [VStr "u3"].
Proof.
  destruct (toggleSelectMember_flips (VStr "u2") [VStr "u3"] eq_refl) as (_ & _ & H).
  by apply H.
Defined.

(** ** Titles and presence lines *)

Lemma findOtherMember_defined usr chat :
  membersWellFormed chat → is_Some (findOtherMember usr chat).
Proof.
  unfold membersWellFormed, findOtherMember.
  destruct (get chat "members") as [| | | | |members|]; try done;
    try (intros _; by eexists).
  intros Hwf.
  assert (is_Some (findThrowing (isOtherMember usr) members)) as [found ->];
    [|by eexists].
  induction Hwf as [|m members Hm _ IH]; simpl; [by eexists|].
  unfold isOtherMember. rewrite Hm. by case_match.
Qed.

(** X16. The title of a direct chat is never an empty or missing value:
    whenever [getChatTitle] returns for a chat that is not a group, the
    title is truthy; it is the text ["Unknown"] when the chat has no
    [members]. It does return when the members are absent or form an
    array without [null] entries. *)
Theorem getChatTitle_direct_is_never_blank (usr : option obj) (chat : obj) :
  truthy (get chat "isGroup") = false →
  (∀ title, getChatTitle usr chat = Some title → truthy title = true) ∧
  (chat !! "members" = None → getChatTitle usr chat = Some (VStr "Unknown")) ∧
  (membersWellFormed chat → is_Some (getChatTitle usr chat)).
Proof.
  intros Hg. unfold getChatTitle. rewrite Hg. split_and!.
  - intros title. destruct (findOtherMember usr chat) as [other|]; [|done].
    intros [= <-]. unfold js_or. by repeat case_match.
  - intros Hm. unfold findOtherMember, get. by rewrite Hm.
  - intros Hwf. destruct (findOtherMember_defined usr chat Hwf) as [other ->].
    by eexists.
Qed.

Lemma getChatTitle_direct_is_never_blank_witness :
  getChatTitle (Some user_u1) chat_direct = Some (VStr "Bo").
Proof.
  destruct (getChatTitle_direct_is_never_blank (Some user_u1) chat_direct eq_refl)
    as (_ & _ & [title Ht]); [repeat constructor|].
  rewrite Ht. vm_compute in Ht. by injection Ht as <-.
Defined.

(** X17. For a direct chat whose other member is offline and has a
    [lastSeen] that parses, the presence line reports the elapsed time in
    the largest fitting unit: "just now" below one minute (a [lastSeen]
    in the future included), whole minutes from 1 to 59, whole hours
    from 1 to 23, and whole days from 1 on. *)
Theorem formatPresenceLine_units
    (usr : option obj) (elapsed : value → option Z) (chat : obj)
    (other : value) (diffMs : Z) :
  truthy (get chat "isGroup") = false →
  getOtherMember usr chat = Some other →
  truthy other = true →
  truthy (get_prop other "isOnline") = false →
  truthy (get_prop other "lastSeen") = true →
  elapsed (get_prop other "lastSeen") = Some diffMs →
  ∃ line, formatPresenceLine usr elapsed chat = Some line ∧
    ((diffMs < 60000 ∧ line = "Last seen just now") ∨
     (∃ n, 1 ≤ n ≤ 59 ∧ n = diffMs / 60000 ∧
           line = "Last seen " +:+ pretty n +:+ " min ago") ∨
     (∃ n, 1 ≤ n ≤ 23 ∧ n = diffMs / 3600000 ∧
           line = "Last seen " +:+ pretty n +:+ " h ago") ∨
     (∃ n, 1 ≤ n ∧ n = diffMs / 86400000 ∧
           line = "Last seen " +:+ pretty n +:+ " d ago")).
Proof.
  intros Hg Hother Ht Honline Hseen Hel.
  unfold formatPresenceLine. rewrite Hg, Hother, Ht, Honline, Hseen, Hel. simpl.
  eexists. split; [done|].
  assert (Hh : diffMs / 60000 / 60 = diffMs / 3600000)
    by (rewrite Z.div_div by lia; done).
  assert (Hd : diffMs / 60000 / 60 / 24 = diffMs / 86400000)
    by (rewrite !Z.div_div by lia; done).
  destruct (diffMs / 60000 <? 1) eqn:E1.
  { left. apply Z.ltb_lt in E1. split; [|done].
    destruct (Z.lt_ge_cases diffMs 60000) as [?|Hge]; [done|].
    apply (Z.div_le_mono _ _ 60000) in Hge; [|lia].
    change (60000 / 60000) with 1 in Hge. lia. }
  apply Z.ltb_ge in E1.
  destruct (diffMs / 60000 <? 60) eqn:E2.
  { right. left. apply Z.ltb_lt in E2. exists (diffMs / 60000).
    split; [lia|done]. }
  apply Z.ltb_ge in E2.
  assert (1 ≤ diffMs / 60000 / 60).
  { apply (Z.div_le_mono _ _ 60) in E2; [|lia].
    change (60 / 60) with 1 in E2. lia. }
  destruct (diffMs / 60000 / 60 <? 24) eqn:E3.
  { right. right. left. apply Z.ltb_lt in E3. exists (diffMs / 60000 / 60).
    split; [lia|]. split; [done|done]. }
  apply Z.ltb_ge in E3.
  right. right. right. exists (diffMs / 60000 / 60 / 24).
  split; [|split; [done|done]].
  apply (Z.div_le_mono _ _ 24) in E3; [|lia].
  change (24 / 24) with 1 in E3. lia.
Qed.

Lemma formatPresenceLine_units_witness :
  formatPresenceLine (Some user_u1) elapsed_90min chat_away =
  Some "Last seen 1 h ago".
Proof.
  destruct (formatPresenceLine_units (Some user_u1) elapsed_90min chat_away
              member_u2_away 5400000) as (line & Hline & _); [reflexivity..|].
  rewrite Hline. vm_compute in Hline. by injection Hline as <-.
Defined.

(** ** Ticks *)

Lemma existsb_values (p : value → bool) (m : obj) :
  existsb p (map_to_list m).*2 = true ↔ ∃ k v, m !! k = Some v ∧ p v = true.
Proof.
  rewrite existsb_exists. split.
  - intros (v & Hin & Hp). apply list_elem_of_In, list_elem_of_fmap in Hin
      as ([k v'] & -> & Hkv). apply elem_of_map_to_list in Hkv. by exists k, v'.
  - intros (k & v & Hkv & Hp). exists v. split; [|done].
    apply list_elem_of_In, list_elem_of_fmap. exists (k, v).
    split; [done|]. by apply elem_of_map_to_list.
Qed.

Lemma renderTicks_spec (message chat : obj) (selfId : value) :
  renderTicks message chat selfId = TwoTicks ↔
  truthy (get message "status") = true ∧
  ∃ k v, spread (get message "status") !! k = Some v ∧ isReceipt v = true.
Proof.
  unfold renderTicks. destruct (truthy (get message "status")); simpl.
  - set (m := spread (get message "status")).
    destruct (existsb (fun v => strict_eq_str v "seen") (map_to_list m).*2) eqn:Es.
    + split; [|done]. intros _. split; [done|].
      apply existsb_values in Es as (k & v & Hkv & Hv).
      exists k, v. split; [done|]. unfold isReceipt. by rewrite Hv.
    + simpl. rewrite orb_false_r.
      destruct (existsb (fun v => strict_eq_str v "delivered") (map_to_list m).*2)
        eqn:Ed.
      * split; [|done]. intros _. split; [done|].
        apply existsb_values in Ed as (k & v & Hkv & Hv).
        exists k, v. split; [done|]. unfold isReceipt. by rewrite Hv, orb_true_r.
      * split; [done|]. intros [_ (k & v & Hkv & Hv)].
        unfold isReceipt in Hv. apply orb_true_iff in Hv as [Hv|Hv].
        -- assert (existsb (fun v => strict_eq_str v "seen") (map_to_list m).*2 = true)
             by (apply existsb_values; eauto). congruence.
        -- assert (existsb (fun v => strict_eq_str v "delivered")
                     (map_to_list m).*2 = true)
             by (apply existsb_values; eauto). congruence.
  - split; [done|]. by intros [? _].
Qed.

(** X18. How a [message:status] event shows in the ticks of a message it
    names: after the event the message shows two check marks exactly
    when the event's status is "delivered" or "seen", or the status map
    already held such a receipt for another user. *)
Theorem ticks_after_status_event
    (ev : status_event) (st : state) (chat : obj) (selfId : value)
    (i : nat) (m : obj) :
  messages st !! i = Some m →
  matchesMessage ev m →
  ∃ m', messages (messageStatus ev st) !! i = Some m' ∧
        (renderTicks m' chat selfId = TwoTicks ↔
         isReceipt (status ev) = true ∨
         ∃ u v, u ≠ String_ (userId ev) ∧
                spread (js_or (get m "status") (VObj ∅)) !! u = Some v ∧
                isReceipt v = true).
Proof.
  intros Hi Hm. unfold messageStatus. simpl. unfold statusUpdateMessages.
  rewrite list_lookup_fmap, Hi. simpl.
  rewrite bool_decide_eq_true_2 by done. simpl. eexists. split; [done|].
  rewrite renderTicks_spec, get_insert_eq. simpl. unfold patchStatus. split.
  - intros [_ (k & v & Hkv & Hv)].
    destruct (decide (k = String_ (userId ev))) as [->|Hne].
    + rewrite lookup_insert_eq in Hkv. injection Hkv as <-. by left.
    + rewrite lookup_insert_ne in Hkv by done. right. by exists k, v.
  - intros [Hv|(u & v & Hne & Huv & Hv)]; (split; [done|]).
    + exists (String_ (userId ev)), (status ev). by rewrite lookup_insert_eq.
    + exists u, v. by rewrite lookup_insert_ne.
Qed.

Lemma ticks_after_status_event_witness :
  ∃ m', messages (messageStatus status_m1_seen state2) !! 0%nat = Some m' ∧
        renderTicks m' chat_c1 (VStr "u1") = TwoTicks.
Proof.
  destruct (ticks_after_status_event status_m1_seen state2 chat_c1 (VStr "u1")
              0%nat msg_m1 eq_refl eq_refl) as (m' & Hm' & Hticks).
  exists m'. split; [exact Hm'|]. apply Hticks. by left.
Defined.

(** ** Connection lifecycle *)

Lemma handleLifecycle_frame st e :
  (chats (handleLifecycle st e), messages (handleLifecycle st e),
   active (handleLifecycle st e), unreadCounts (handleLifecycle st e),
   emitted (handleLifecycle st e), input (handleLifecycle st e)) =
  (chats st, messages st, active st, unreadCounts st, emitted st, input st).
Proof. destruct e as [| |message| | |]; simpl; try done. by case_match. Qed.



(** ** The unread badge *)

(** X20. The badge of a chat shows the number of messages that arrived
    for it from other users while it was not active: starting from no
    unread message, after [n > 0] such [message:new] events
    [renderUnread] shows [n]; once that chat is made active and the
    activation effect has run, the badge is gone. *)
Theorem unread_badge_counts_then_clears
    (st : state) (chat : obj) (evs : list (bool * obj)) (has_socket : bool) :
  Forall (fun e => inboundToInactive st (canonical_id chat) e.2) evs →
  unread_or0 (unreadCounts st) (canonical_id chat) = 0 →
  evs ≠ [] →
  let st' := deliverAll st evs in
  renderUnread (unreadCounts st') chat = Some (Z.of_nat (length evs)) ∧
  renderUnread
    (unreadCounts (clearUnreadAndMarkSeen has_socket (setActive (Some chat) st')))
    chat = None.
Proof.
  intros Hall H0 Hne. cbv zeta.
  destruct (deliverAll_inbound_unread st (canonical_id chat) evs Hall) as (Hn & _).
  unfold renderUnread. rewrite Hn, H0. split.
  - destruct evs; [done|]. simpl length.
    rewrite (proj2 (Z.eqb_neq _ _)) by lia. f_equal; lia.
  - unfold clearUnreadAndMarkSeen. simpl.
    assert (Hclear : ∀ (b : bool) x s1,
      unreadCounts (if b then socket_do x s1 else s1) = unreadCounts s1)
      by (by intros []).
    rewrite Hclear. simpl. by rewrite clearUnread_zero.
Qed.

Lemma unread_badge_counts_then_clears_witness :
  renderUnread
    (unreadCounts (deliverAll state0 [(true, msg_m2); (false, msg_m2)]))
    chat_c2 = Some 2.
Proof.
  destruct (unread_badge_counts_then_clears state0 chat_c2
              [(true, msg_m2); (false, msg_m2)] true) as (H & _).
  - repeat constructor; vm_compute; discriminate.
  - reflexivity.
  - done.
  - exact H.
Defined.

(** ** What the acknowledgment callback never does *)

(** X21. Whatever acknowledgment arrives, the callback of [send] never
    makes the thread longer, and it touches nothing but the thread and
    the alerts: chat list, active chat, unread counters, input and
    socket emissions are as before. In particular a success
    acknowledgment whose optimistic entry is no longer in the thread
    adds nothing. *)
Theorem ack_never_adds_an_entry
    (tempId : string) (ack : option ack_payload) (st : state) :
  let st' := ackCallback tempId ack st in
  (length (messages st') ≤ length (messages st))%nat ∧
  (optimisticEntries tempId (messages st) = [] → messages st' = messages st) ∧
  (chats st', active st', unreadCounts st', input st', emitted st', fetches st') =
  (chats st, active st, unreadCounts st, input st, emitted st, fetches st).
Proof.
  cbv zeta. unfold ackCallback.
  destruct ack as [a|]; [|by split_and!].
  destruct (if truthy (ack_ok a) then ack_message a else None) as [real|].
  - simpl. unfold reconcileAck. split_and!; [| |done].
    + case_match.
      * unfold removeOptimistic. apply length_filter.
      * by rewrite length_map.
    + intros Hnone. case_match; [by apply removeOptimistic_absent|].
      apply map_unchanged. intros m Hm.
      destruct (strict_eq_str (get m "id") tempId) eqn:E; [|done].
      assert (m ∈ optimisticEntries tempId (messages st)) as Hin
        by by apply list_elem_of_filter.
      rewrite Hnone in Hin. by apply elem_of_nil in Hin.
  - destruct (truthy (ack_error a)); simpl; [|by split_and!].
    split_and!; [| |done].
    + unfold removeOptimistic. apply length_filter.
    + by apply removeOptimistic_absent.
Qed.

Lemma ack_never_adds_an_entry_witness :
  messages (ackCallback "temp-9" (Some ack_stored) state_sent) = messages state_sent.
Proof.
  apply (ack_never_adds_an_entry "temp-9" (Some ack_stored) state_sent).
  reflexivity.
Defined.

(** ** [send] on a socket that reconnects in time *)

Lemma waitLoop_broke sk fuel n w r w' b :
  waitLoop fuel sk n w = Some (r, w', b) →
  connected_after sk n = false →
  (b = true ↔ connected_after sk r = true).
Proof.
  revert n w. induction fuel as [|fuel IH]; intros n w; [done|].
  simpl. intros Heq Hn. rewrite Hn in Heq. simpl in Heq.
  destruct (w <? maxWait).
  - destruct (connected_after sk (S n)) eqn:Hs.
    + injection Heq as <- <- <-. by rewrite Hs.
    + by apply (IH (S n) (w + checkInterval)).
  - injection Heq as <- <- <-. rewrite Hn. split; done.
Qed.

(** X22. [send] goes through when the socket comes back within the
    wait: if the socket is down at the call but is seen connected after
    some number of polling delays up to [maxPolls], then (with an active
    chat, a signed-in user and input that is not all white space) the
    optimistic entry is appended, one [message:send] is emitted, the
    connection flag is set and no alert is shown. The wait ends at the
    first delay after which the socket is connected. *)
Theorem send_goes_through_after_reconnect
    (sk : socket_view) (a u : obj) (now : Z) (iso : string) (st : state) (j : nat) :
  active st = Some a →
  user st = Some u →
  all_ws (input st) = false →
  connected_after sk 0 = false →
  (j ≤ maxPolls)%nat →
  connected_after sk j = true →
  let st' := send (Some sk) now iso st in
  ∃ n optimisticMsg payload,
    awaitConnection sk = Some (n, checkInterval * Z.of_nat n, true) ∧
    (n ≤ j)%nat ∧ connected_after sk n = true ∧
    (∀ i, (i < n)%nat → connected_after sk i = false) ∧
    messages st' = messages st ++ [optimisticMsg] ∧
    get optimisticMsg "id" = VStr ("temp-" +:+ pretty now) ∧
    socketConnected st' = true ∧
    alerts st' = alerts st ∧
    last (emitted st') =
      Some (EmitAck "message:send" payload ("temp-" +:+ pretty now)).
Proof.
  intros Ha Hu Hws H0 Hj Hcj. cbv zeta.
  destruct (awaitConnection_spec sk) as (n & broke & Heq & Hle & Hlast & Hprev).
  assert (Hn : connected_after sk n = true).
  { destruct (connected_after sk n) eqn:E; [done|].
    destruct (Hlast eq_refl) as [-> _].
    destruct (decide (j = maxPolls)) as [->|]; [congruence|].
    rewrite Hprev in Hcj by lia. done. }
  assert (Hnj : (n ≤ j)%nat).
  { destruct (decide (n ≤ j)%nat) as [?|Hgt]; [done|].
    rewrite Hprev in Hcj by lia. done. }
  assert (Hbroke : broke = true).
  { by apply (waitLoop_broke sk _ 0%nat 0 n _ broke Heq H0). }
  subst broke.
  unfold send. rewrite Ha, trim_empty, Hws, H0, Heq, Hn. simpl.
  unfold sendOptimistic.
  set (st1 := if negb (connecting sk) && negb (disconnected sk)
              then socket_do Connect st else st).
  assert (Hst1 : user st1 = Some u ∧ messages st1 = messages st ∧
                 alerts st1 = alerts st ∧ input st1 = input st).
  { subst st1. by destruct (negb (connecting sk) && negb (disconnected sk)). }
  destruct Hst1 as (Hu1 & Hm1 & Ha1 & Hi1).
  simpl. rewrite Hu1. simpl. rewrite Hm1, Ha1.
  eexists n, _, _. split_and!; try done.
  by rewrite last_snoc.
Qed.

Lemma send_goes_through_after_reconnect_witness :
  length (messages (send (Some socket_late) 1 "" (setInput "hi" state0))) = 1%nat.
Proof.
  destruct (send_goes_through_after_reconnect socket_late chat_c1 user_u1 1 ""
              (setInput "hi" state0) 5)
    as (n & m & p & _ & _ & _ & _ & Hm & _);
    [reflexivity | reflexivity | reflexivity | reflexivity
    | vm_compute; lia | reflexivity | ].
  by rewrite Hm.
Defined.

(** ** The chat list over the whole life of the component *)

Lemma send_chats socket now iso st : chats (send socket now iso st) = chats st.
Proof.
  unfold send, sendOptimistic.
  repeat (case_match; simpl; try done).
Qed.

Lemma ackCallback_chats tempId ack st : chats (ackCallback tempId ack st) = chats st.
Proof. unfold ackCallback. repeat (case_match; simpl; try done). Qed.

Lemma presencePatchChat_id data c c' :
  presencePatchChat data c = Some c' → canonical_id c' = canonical_id c.
Proof.
  intros [Hkeys _]%presencePatchChat_spec.
  unfold canonical_id, raw_id, get. by rewrite !Hkeys.
Qed.

Lemma userPresence_ids data st st' :
  userPresence data st = Some st' →
  canonical_id <$> chats st' = canonical_id <$> chats st.
Proof.
  unfold userPresence. destruct (mapM _ (chats st)) as [next|] eqn:Hmap; [|done].
  intros [= <-]. simpl. apply mapM_Some in Hmap.
  induction Hmap as [|c c' ? ? Hc _ IH]; [done|].
  rewrite !fmap_cons, IH. f_equal. by apply (presencePatchChat_id data).
Qed.

Lemma typingUpdateChats_ids data l :
  canonical_id <$> typingUpdateChats data l = canonical_id <$> l.
Proof.
  unfold typingUpdateChats. apply fmap_canonical_id_map.
  intros c. case_match; [|done]. by apply canonical_id_insert.
Qed.

Lemma perform_preserves_unique_ids st a st' :
  perform st a = Some st' →
  NoDup (canonical_id <$> chats st) → NoDup (canonical_id <$> chats st').
Proof.
  destruct a as [e|data|data|active0 resp|resp|has_socket chat|chat|has_socket
                |has_socket|socket now iso|tempId ack|e]; simpl.
  - intros [= <-]. apply step_preserves_unique_ids.
  - intros [= <-] Hnd.
    change (NoDup (canonical_id <$> typingUpdateChats data (chats st))).
    by rewrite typingUpdateChats_ids.
  - intros Hp Hnd. by rewrite (userPresence_ids data st st').
  - intros [= <-] Hnd. destruct resp as [data|data| |]; simpl.
    + assert (chats (loadChats active0 (RespArray data) st) = firstOccurrences ∅ data)
        as Hc.
      { unfold loadChats. rewrite uniqueChats_firstOccurrences.
        by destruct (firstOccurrences ∅ data), active0. }
      simpl in Hc. rewrite Hc. apply firstOccurrences_NoDup.
    + destruct active0; simpl; apply NoDup_singleton.
    + constructor.
    + done.
  - intros [= <-] Hnd. by destruct resp.
  - intros [= <-] Hnd. rewrite adoptCreatedChat_chats.
    by apply insert_if_absent_unique.
  - by intros [= <-].
  - intros [= <-] Hnd. unfold activeChanged. by repeat case_match.
  - intros [= <-] Hnd. unfold clearUnreadAndMarkSeen. by repeat case_match.
  - intros [= <-] Hnd. by rewrite send_chats.
  - intros [= <-] Hnd. by rewrite ackCallback_chats.
  - intros [= <-] Hnd.
    pose proof (handleLifecycle_frame st e) as Hf. by injection Hf as -> _.
Qed.

(** X23. The chat cache never holds two chats with the same canonical
    id. Starting from a chat list with pairwise distinct ids (the empty
    list of a fresh component in particular), after any sequence of
    actions that goes through (loading, pushed events, typing and
    presence patches, chats created here, selection, sends,
    acknowledgments, connection notifications) the ids are still
    pairwise distinct, and the sidebar lists every cached chat. *)
Theorem chat_ids_stay_unique (st st' : state) (acts : list action) :
  NoDup (canonical_id <$> chats st) →
  performAll st acts = Some st' →
  NoDup (canonical_id <$> chats st') ∧
  listedChats (chats st') = chats st'.
Proof.
  intros Hnd Hrun.
  assert (Hnd' : NoDup (canonical_id <$> chats st')).
  { revert st Hnd Hrun. induction acts as [|a acts IH]; intros st Hnd; simpl.
    - by intros [= <-].
    - destruct (perform st a) as [st1|] eqn:Hp; [|done].
      apply IH. by apply (perform_preserves_unique_ids st a). }
  split; [done|].
  assert (H : listedChats (chats st') = firstOccurrences ∅ (chats st')).
  { unfold listedChats. apply (listedChats_from [] (chats st') ∅).
    intros k. simpl.
    split; [by intros ?%not_elem_of_empty|by intros ?%elem_of_nil]. }
  rewrite H. apply firstOccurrences_unique; [done|].
  by intros k ?%not_elem_of_empty.
Qed.

Lemma chat_ids_stay_unique_witness :
  ∃ st', performAll state_fresh sample_session = Some st' ∧
         NoDup (canonical_id <$> chats st').
Proof.
  eexists. split; [reflexivity|].
  apply (chat_ids_stay_unique state_fresh _ sample_session); [constructor|reflexivity].
Defined.

(** ** The socket instance *)

Lemma socketHistory_snoc tokens t :
  socketHistory (tokens ++ [t]) =
  ((socketMemo (socketHistory tokens).1 t).1,
   (socketHistory tokens).2 ++ (socketMemo (socketHistory tokens).1 t).2).
Proof.
  unfold socketHistory. rewrite foldl_app. simpl.
  by destruct (socketMemo _ t).
Qed.

Lemma countCalls_app p l1 l2 :
  countCalls p (l1 ++ l2) = (countCalls p l1 + countCalls p l2)%nat.
Proof. unfold countCalls. by rewrite filter_app, length_app. Qed.

(** X24. [Inner] keeps at most one socket alive. After [token] has taken
    any sequence of values, the sockets created outnumber the
    disconnects by one when a socket is held and by none otherwise; a
    socket is held exactly when the last token is present; and the
    socket held was created with the first token that followed the
    latest absence of a token: later tokens, being all present, reuse
    it. *)
Theorem socket_is_created_once_per_session (tokens : list (option string)) :
  let ref := (socketHistory tokens).1 in
  let calls := (socketHistory tokens).2 in
  countCalls isCreate calls =
    (countCalls (fun c => negb (isCreate c)) calls +
     match ref with Some _ => 1 | None => 0 end)%nat ∧
  (ref = None ↔ endsAbsent tokens) ∧
  (∀ s, ref = Some s →
     ∃ pre tk post, tokens = pre ++ tk :: post ∧ presentToken tk = Some s ∧
                    endsAbsent pre ∧
                    Forall (fun t => is_Some (presentToken t)) post).
Proof.
  cbv zeta. induction tokens as [|t tokens IH] using rev_ind.
  - split_and!; [done| |done]. split; [by left|done].
  - destruct IH as (Hcount & Hnone & Hsome).
    rewrite socketHistory_snoc. simpl. unfold socketMemo.
    destruct (presentToken t) as [tt|] eqn:Ht;
      destruct (socketHistory tokens).1 as [s|] eqn:Href; simpl.
    + rewrite app_nil_r. split_and!; [done| |].
      * split; [done|]. intros [Hnil|(pre & t' & Heq & Habs)].
        -- by destruct tokens.
        -- apply app_inj_tail in Heq as [_ ->]. congruence.
      * intros s' [= <-]. destruct (Hsome s eq_refl) as (pre & tk & post & -> & ? & ? & ?).
        exists pre, tk, (post ++ [t]). rewrite <- app_assoc. split_and!; try done.
        apply Forall_app. split; [done|]. constructor; [by eexists|constructor].
    + rewrite countCalls_app, Hcount. split_and!.
      * unfold countCalls. simpl. rewrite filter_app, length_app. simpl. lia.
      * split; [done|]. intros [Hnil|(pre & t' & Heq & Habs)].
        -- by destruct tokens.
        -- apply app_inj_tail in Heq as [_ ->]. congruence.
      * intros s' [= <-]. exists tokens, t, []. split_and!; try done.
        by apply Hnone.
    + rewrite countCalls_app, Hcount. split_and!.
      * unfold countCalls. simpl. rewrite filter_app, length_app. simpl. lia.
      * split; [|done]. intros _. right. by exists tokens, t.
      * done.
    + rewrite app_nil_r. split_and!; [done| |done].
      split; [|done]. intros _. right. by exists tokens, t.
Qed.

Lemma socket_is_created_once_per_session_witness :
  socketHistory [Some "t1"; Some "t2"; None; Some "t3"; Some "t4"] =
  (Some "t3", [IoCreate "t1"; IoDisconnect; IoCreate "t3"]) ∧
  ∃ pre tk post,
    [Some "t1"; Some "t2"; None; Some "t3"; Some "t4"] = pre ++ tk :: post ∧
    presentToken tk = Some "t3".
Proof.
  split; [reflexivity|].
  destruct (socket_is_created_once_per_session
              [Some "t1"; Some "t2"; None; Some "t3"; Some "t4"])
    as (_ & _ & H).
  destruct (H "t3" eq_refl) as (pre & tk & post & Heq & Htk & _).
  by exists pre, tk, post.
Defined.
